(** * secblk: fund records and typed tables

    A shallow embedding of [secblk/funds.py] (the [Fund] record, its
    constructor and its merge operator [__add__]) and of [secblk/tables.py]
    (the value parsers and the [Table] class), with the properties the
    specification states about them.

    Conventions.
    - A Python [str] is a Rocq [string]; a character is read as the code
      point of the same number (U+0000 .. U+00FF).
    - A Python [int] is a [Z]; a Python [float] is a binary64 [float].
    - [Optional[T]] is [option T], [None] being [None].
    - A raised exception is a value of [exn]; code that may raise returns
      a [result].  Code that also logs returns a pair of its result and
      the warnings it logged. *)

From Stdlib Require Import ZArith Floats Ascii String List Bool Lia.
From stdpp Require Import base tactics option list gmap strings.

Local Open Scope string_scope.
Local Open Scope list_scope.

(** ** The Python runtime pieces the program relies on *)

Module Py.

(** The exceptions the modelled code raises, with their message. *)
Inductive exn : Type :=
| TypeError (msg : string)
| ValueError (msg : string)
| OverflowError (msg : string)
| KeyError
| IndexError.

Inductive result (A : Type) : Type :=
| Ok (a : A)
| Raise (e : exn).
Arguments Ok {A} a.
Arguments Raise {A} e.

Definition is_ValueError (e : exn) : bool :=
  match e with ValueError _ => true | _ => false end.

#[export] Instance result_ret : MRet result := @Ok.
#[export] Instance result_bind : MBind result := fun A B k r =>
  match r with
  | Ok a => k a
  | Raise e => Raise e
  end.
#[export] Instance result_fmap : FMap result := fun A B f r =>
  match r with
  | Ok a => Ok (f a)
  | Raise e => Raise e
  end.

(** Code that logs: the result and the warnings, oldest first. *)
Definition logged (A : Type) : Type := (result A * list string)%type.

Definition ret {A} (a : A) : logged A := (Ok a, []).
Definition raise {A} (e : exn) : logged A := (Raise e, []).
Definition warning (msg : string) : logged unit := (Ok tt, [msg]).
Definition lift {A} (r : result A) : logged A := (r, []).

#[export] Instance logged_ret : MRet logged := @ret.
#[export] Instance logged_bind : MBind logged := fun A B k m =>
  match m with
  | (Ok a, w) => let (r, w') := k a in (r, w ++ w')
  | (Raise e, w) => (Raise e, w)
  end.

(** *** Characters *)

Definition code (c : ascii) : nat := nat_of_ascii c.

Definition between (lo hi : nat) (c : ascii) : bool :=
  (lo <=? code c)%nat && (code c <=? hi)%nat.

(** [[A-Z]] *)
Definition is_upper : ascii -> bool := between 65 90.
(** [\d] and [[0-9]]: below U+0100 the only decimal digits are 0-9. *)
Definition is_digit : ascii -> bool := between 48 57.
(** The line feed, the one character [.] does not match. *)
Definition is_newline (c : ascii) : bool := (code c =? 10)%nat.

Definition digit_value (c : ascii) : Z := Z.of_nat (code c - 48).

Definition is_underscore (c : ascii) : bool := (code c =? 95)%nat.
Definition is_plus (c : ascii) : bool := (code c =? 43)%nat.
Definition is_minus (c : ascii) : bool := (code c =? 45)%nat.

(** The white space [int] skips at both ends of a [str]: the ASCII
    characters tab to carriage return and the space, and the other
    white space characters, of which U+0085 and U+00A0 are below
    U+0100. *)
Definition is_space (c : ascii) : bool :=
  between 9 13 c || (code c =? 32)%nat
  || (code c =? 133)%nat || (code c =? 160)%nat.

(** *** [int(text)] for a [str] *)

(** The interpreter's default limit on the digits of a converted string. *)
Definition int_max_str_digits : nat := 4300.

(** The digits: one digit or more, with single underscores between
    digits.  [need] says that a digit must come next; [acc] is the value
    and [n] the number of the digits read so far.  Returns these and the
    characters left. *)
Fixpoint int_digits (need : bool) (acc : Z) (n : nat) (l : list ascii)
  : option (Z * nat * list ascii) :=
  match l with
  | c :: r =>
      if is_digit c then int_digits false (10 * acc + digit_value c) (S n) r
      else if need then None
      else if is_underscore c then int_digits true acc n r
      else Some (acc, n, l)
  | [] => if need then None else Some (acc, n, [])
  end.

Fixpoint skip_spaces (l : list ascii) : list ascii :=
  match l with
  | c :: r => if is_space c then skip_spaces r else l
  | [] => []
  end.

Definition int_sign (l : list ascii) : Z * list ascii :=
  match l with
  | c :: r => if is_plus c then (1%Z, r)
              else if is_minus c then ((-1)%Z, r)
              else (1%Z, l)
  | [] => (1%Z, [])
  end.

(** The messages are shortened: the interpreter adds the text and the
    number of digits. *)
Definition int_ (text : string) : result Z :=
  let invalid := Raise (ValueError "invalid literal for int() with base 10") in
  let (sign, l) := int_sign (skip_spaces (list_ascii_of_string text)) in
  match int_digits true 0 0 l with
  | None => invalid
  | Some (v, n, rest) =>
      if (int_max_str_digits <? n)%nat then
        Raise (ValueError "Exceeds the limit for integer string conversion")
      else
        match skip_spaces rest with
        | [] => Ok (sign * v)%Z
        | _ => invalid
        end
  end.

(** What [int] accepts, as a grammar: white space, an optional sign,
    digits with single underscores between them, white space; and no
    more digits than the limit. *)
Inductive digit_tail : list ascii -> Prop :=
| tail_end : digit_tail []
| tail_digit c r :
    is_digit c = true -> digit_tail r -> digit_tail (c :: r)
| tail_underscore u c r :
    is_underscore u = true -> is_digit c = true -> digit_tail r ->
    digit_tail (u :: c :: r).

Definition digits (l : list ascii) : Prop :=
  exists c r, l = c :: r /\ is_digit c = true /\ digit_tail r.

Definition count_digits (l : list ascii) : nat :=
  length (List.filter is_digit l).
Arguments count_digits : simpl never.

Definition spaces (l : list ascii) : Prop :=
  Forall (fun c => is_space c = true) l.

Definition sign (l : list ascii) : Prop :=
  l = [] \/ exists c, l = [c] /\ (is_plus c = true \/ is_minus c = true).

Definition int_literal (l : list ascii) : Prop :=
  exists ws1 sg ds ws2,
    l = ws1 ++ sg ++ ds ++ ws2
    /\ spaces ws1 /\ sign sg /\ digits ds
    /\ count_digits ds <= int_max_str_digits
    /\ spaces ws2.

(** The text after the digits does not go on as digits. *)
Definition stops (rest : list ascii) : Prop :=
  match rest with
  | [] => True
  | c :: _ => is_digit c = false /\ is_underscore c = false
  end.

(** The characters a literal is made of. *)
Definition literal_char (c : ascii) : bool :=
  is_digit c || is_space c || is_underscore c || is_plus c || is_minus c.

(** *** Dictionaries that keep the order of insertion *)

Section Dict.
Context {K V : Type} `{EqDecision K}.

Fixpoint dict_get (k : K) (d : list (K * V)) : option V :=
  match d with
  | [] => None
  | (k', v) :: r => if decide (k = k') then Some v else dict_get k r
  end.

(** [k in d] *)
Definition dict_in (k : K) (d : list (K * V)) : bool :=
  match dict_get k d with Some _ => true | None => false end.

(** [d[k] = v]: a key keeps its place, a new one goes last. *)
Fixpoint dict_set (k : K) (v : V) (d : list (K * V)) : list (K * V) :=
  match d with
  | [] => [(k, v)]
  | (k', v') :: r =>
      if decide (k = k') then (k, v) :: r else (k', v') :: dict_set k v r
  end.
End Dict.

(** [{k: f(a) for k, a in items}], which stops at the first [f(a)] that
    raises. *)
Fixpoint dict_comp {K A B} `{EqDecision K} (f : A -> result B)
    (items : list (K * A)) (acc : list (K * B)) : result (list (K * B)) :=
  match items with
  | [] => Ok acc
  | (k, a) :: r =>
      match f a with
      | Ok b => dict_comp f r (dict_set k b acc)
      | Raise e => Raise e
      end
  end.

(** [l.index(x)] *)
Fixpoint index {A} `{EqDecision A} (x : A) (l : list A) : result nat :=
  match l with
  | [] => Raise (ValueError "x is not in list")
  | y :: r => if decide (y = x) then Ok O else S <$> index x r
  end.

(** *** Truthiness and [or] *)

Class Truthy (A : Type) := truthy : A -> bool.

#[export] Instance truthy_int : Truthy Z := fun z => negb (z =? 0)%Z.
#[export] Instance truthy_str : Truthy string :=
  fun s => match s with EmptyString => false | _ => true end.
(** [bool(x)] is [x != 0.0]: both zeros are false, a NaN is true. *)
#[export] Instance truthy_float : Truthy float :=
  fun x => negb (PrimFloat.eqb x 0%float).
#[export] Instance truthy_optional {A} `{Truthy A} : Truthy (option A) :=
  fun o => match o with Some a => truthy a | None => false end.

(** [x or y] *)
Definition or_ {A} `{Truthy A} (x y : A) : A := if truthy x then x else y.

(** *** Floating point *)

(** [float(n)] for an [int]: the nearest binary64 number, ties to even;
    an [int] beyond the range raises. *)
Definition float_of_int (n : Z) : result float :=
  let x := SF2Prim (binary_normalize prec emax n 0 false) in
  if is_infinity x
  then Raise (OverflowError "int too large to convert to float")
  else Ok x.

(** [math.isclose(a, b)] with its default [rel_tol=1e-09] and
    [abs_tol=0.0]. *)
Definition rel_tol : float := 0x1.12e0be826d695p-30%float.
Definition abs_tol : float := 0%float.

Definition isclose (a b : float) : bool :=
  if PrimFloat.eqb a b then true
  else if is_infinity a || is_infinity b then false
  else
    let diff := abs (b - a)%float in
    PrimFloat.leb diff (abs (rel_tol * b)%float)
    || PrimFloat.leb diff (abs (rel_tol * a)%float)
    || PrimFloat.leb diff abs_tol.

End Py.

Export Py.


(** ** Funds ([secblk/funds.py]) *)

Module Funds.

(** *** The ISIN pattern

    [re.match] of the constructor's pattern, by backtracking on the
    characters of the input.  The pattern is anchored at both ends and
    has three named groups: [pre], a greedy run of any characters but
    the line feed; [isin], which is [[A-Z]{2}[A-Z0-9]{10}]; and [post],
    a run like [pre]. *)

Definition isin_char (c : ascii) : bool := is_upper c || is_digit c.

(** [[A-Z]{2}[A-Z0-9]{10}] on exactly the characters [l]. *)
Definition isin_shape (l : list ascii) : bool :=
  (length l =? 12)%nat
  && forallb is_upper (take 2 l)
  && forallb isin_char (drop 2 l).

(** [.*], as far as it can go: the run of characters up to a line feed. *)
Fixpoint dot_star (l : list ascii) : list ascii :=
  match l with
  | c :: r => if is_newline c then [] else c :: dot_star r
  | [] => []
  end.

(** The [post] group and the final [$] on the rest [l] of the input: the
    run must reach the end of the input, or the line feed that ends it. *)
Definition post_here (l : list ascii) : option (list ascii) :=
  let post := dot_star l in
  match drop (length post) l with
  | [] => Some post
  | [_] => Some post
  | _ => None
  end.

(** The rest of the pattern, tried [i] characters into the input. *)
Definition isin_at (l : list ascii) (i : nat)
  : option (list ascii * list ascii * list ascii) :=
  let code := take 12 (drop i l) in
  if isin_shape code then
    match post_here (drop 12 (drop i l)) with
    | Some post => Some (take i l, code, post)
    | None => None
    end
  else None.

(** The greedy [pre] group gives characters back one at a time. *)
Fixpoint isin_backtrack (l : list ascii) (i : nat)
  : option (list ascii * list ascii * list ascii) :=
  match isin_at l i with
  | Some m => Some m
  | None => match i with
            | O => None
            | S j => isin_backtrack l j
            end
  end.

Definition isin_match (l : list ascii)
  : option (list ascii * list ascii * list ascii) :=
  isin_backtrack l (length (dot_star l)).

(** *** The record *)

Record Fund : Type := mkFund {
  isin : string;
  value_number : option Z;
  quantity : Z;
  _name : list string;
  value : option float;
  country : option string;
  currency : option string
}.

(** What a caller may pass as [name]: nothing, one string, a list of
    strings, or a value of another type. *)
Inductive name_arg : Type :=
| NameNone
| NameStr (s : string)
| NameList (l : list string)
| NameOther.

Definition extra_characters (isin code : string) : string :=
  "ISIN " +:+ isin
  +:+ " contains extra characters before or after the ISIN number "
  +:+ code.

(** [Fund.__init__] *)
Definition init (isin : string) (value_number : option Z) (quantity : Z)
    (name : name_arg) (value : option float)
    (country currency : option string) (check_isin : bool)
  : logged Fund :=
  code ← (if check_isin then
            match isin_match (list_ascii_of_string isin) with
            | None => raise (TypeError ("Invalid ISIN: " +:+ isin))
            | Some (pre, code, post) =>
                let code := string_of_list_ascii code in
                (if truthy (string_of_list_ascii pre)
                    || truthy (string_of_list_ascii post)
                 then warning (extra_characters isin code)
                 else ret tt) ;;
                ret code
            end
          else ret isin) ;
  names ← match name with
          | NameNone => ret []
          | NameStr s => ret [s]
          | NameList l => ret l
          | NameOther =>
              raise (TypeError "Name must be a string or a list of strings")
          end ;
  ret (mkFund code value_number quantity names value country currency).

Arguments init : simpl never.

(** The [name] property. *)
Fixpoint join (sep : string) (l : list string) : string :=
  match l with
  | [] => ""
  | [s] => s
  | s :: r => s +:+ sep +:+ join sep r
  end.

Definition name (f : Fund) : string := join " | " (_name f).

(** [Fund.__eq__], between two funds. *)
Definition eq (self other : Fund) : bool :=
  String.eqb (isin self) (isin other).

(** [a != b] on integers and on strings. *)
Definition neq_int (a b : Z) : bool := negb (a =? b)%Z.
Definition neq_str (a b : string) : bool := negb (String.eqb a b).

(** [x is not None and y is not None and x != y] *)
Definition differ {A} (neq : A -> A -> bool) (x y : option A) : bool :=
  match x, y with
  | Some a, Some b => neq a b
  | _, _ => false
  end.

(** The condition of the third check of [__add__]:
    [self.value is not None and other.value is not None
     and not math.isclose(self.value, other.quantity)]. *)
Definition value_check (self other : Fund) : result bool :=
  match value self, value other with
  | Some v, Some _ =>
      match float_of_int (quantity other) with
      | Ok q => Ok (negb (isclose v q))
      | Raise e => Raise e
      end
  | _, _ => Ok false
  end.

(** [Fund.__add__], on two funds. *)
Definition add (self other : Fund) : logged Fund :=
  if negb (eq self other) then
    raise (ValueError "Cannot add funds with different ISINs")
  else if differ neq_int (value_number self) (value_number other) then
    raise (ValueError "Cannot add funds with different value numbers")
  else
    bad ← lift (value_check self other) ;
    if bad : bool then
      raise (ValueError "Cannot add funds with different quantities")
    else if differ neq_str (country self) (country other) then
      raise (ValueError "Cannot add funds with different countries")
    else if differ neq_str (currency self) (currency other) then
      raise (ValueError "Cannot add funds with different currencies")
    else
      init (isin self)
           (or_ (value_number self) (value_number other))
           (quantity self + quantity other)%Z
           (NameList (_name self ++ _name other))
           (or_ (value self) (value other))
           (or_ (country self) (country other))
           (or_ (currency self) (currency other))
           true.

(** *** Notions used to state the properties *)

(** The canonical shape occurs [i] characters into [l]. *)
Definition isin_occurs (l : list ascii) (i : nat) : Prop :=
  isin_shape (take 12 (drop i l)) = true.

(** [l] has a substring of the canonical shape. *)
Definition contains_isin (l : list ascii) : Prop :=
  exists pre code post, l = pre ++ code ++ post /\ isin_shape code = true.

(** A line feed, if any, is the last character. *)
Definition single_line (l : list ascii) : Prop :=
  forall k c, l !! k = Some c -> is_newline c = true -> S k = length l.

(** A field that only one side holds is true as a condition (not zero,
    not empty). *)
Definition one_sided_truthy {A} `{Truthy A} (x y : option A) : Prop :=
  match x, y with
  | Some a, None | None, Some a => truthy a = true
  | _, _ => True
  end.

End Funds.


(** ** Tables ([secblk/tables.py]) *)

Module Tables.

(** [TableSpec] *)
Record TableSpec : Type := mkTableSpec {
  columns : list (string * string);
  drop : option (list string)
}.

(** *** Parsers *)

(** What a parser returns. *)
Inductive pyval : Type :=
| VStr (s : string)
| VInt (z : Z)
| VFloat (x : float).

(** A parser is an object with a [value] method. *)
Record Parser : Type := mkParser {
  value : string -> result pyval
}.

(** [Parser.value] *)
Definition Parser_value (text : string) : result pyval := Ok (VStr text).

(** [c] is matched by the character class [[sep]], for a separator
    whose characters stand for themselves in a class.  The code puts the
    separator into the class as it is, so a separator with class syntax
    is read otherwise: a leading caret negates, a backslash escapes, a
    closing bracket may end the class early, a hyphen may make a range,
    and a class that is not well formed makes [re.sub] raise [re.error].
    Such separators are outside this model; [literal_separator] says that
    a separator has none of these characters, and the properties of the
    integer parser are stated for such separators only. *)
Definition in_class (sep : string) (c : ascii) : bool :=
  existsb (Ascii.eqb c) (list_ascii_of_string sep).

(** The characters with a meaning of their own in a class: the caret,
    the two square brackets, the backslash and the hyphen; and the
    ampersand, the tilde and the vertical bar, which the class reads as
    themselves but warns about when they are doubled. *)
Definition class_syntax (c : ascii) : bool :=
  existsb (Nat.eqb (code c)) [94; 93; 91; 92; 45; 38; 126; 124].

(** Every character of the separator stands for itself in a class. *)
Definition literal_separator (sep : string) : bool :=
  forallb (fun c => negb (class_syntax c)) (list_ascii_of_string sep).

(** The lookahead [(?=\d{3})]. *)
Definition three_digits (l : list ascii) : bool :=
  match l with
  | a :: b :: c :: _ => is_digit a && is_digit b && is_digit c
  | _ => false
  end.

(** The lookbehind [(?<=\d)], [prev] being the character before. *)
Definition after_digit (prev : option ascii) : bool :=
  match prev with Some p => is_digit p | None => false end.

(** [re.sub] of the separator pattern by the empty string: a scan from
    the left that drops each matched character.  Both lookarounds read
    the text as it was given. *)
Fixpoint sub_thousands (sep : string) (prev : option ascii) (l : list ascii)
  : list ascii :=
  match l with
  | [] => []
  | c :: r =>
      if in_class sep c && after_digit prev && three_digits r
      then sub_thousands sep (Some c) r
      else c :: sub_thousands sep (Some c) r
  end.

Definition strip_thousands (thousand_sep : option string) (text : string)
  : string :=
  match thousand_sep with
  | Some sep =>
      if truthy sep
      then string_of_list_ascii
             (sub_thousands sep None (list_ascii_of_string text))
      else text
  | None => text
  end.

(** [IntParser.value], for no separator or a [literal_separator]. *)
Definition IntParser_value (thousand_sep : option string) (text : string)
  : result pyval :=
  VInt <$> int_ (strip_thousands thousand_sep text).

(** [Parser()] and [IntParser(thousand_separator)] *)
Definition Parser_ : Parser := mkParser Parser_value.
Definition IntParser (thousand_separator : option string) : Parser :=
  mkParser (IntParser_value thousand_separator).

(** *** The table

    The fields of [Table] with their declared types; [selected] keeps
    the order of its labels.  A table is taken from its first [select]
    on: the selection the constructor starts with, which maps the column
    indexes to the column names, is replaced by [select] as a whole. *)
Record Table : Type := mkTable {
  _header : list string;
  _content : list (list string);
  selected : list (string * nat);
  parsers : gmap nat Parser;
  _n_row : nat
}.

Definition set_selection (t : Table) (sel : list (string * nat))
    (ps : gmap nat Parser) : Table :=
  mkTable (_header t) (_content t) sel ps (_n_row t).

Definition set_parsers (t : Table) (ps : gmap nat Parser) : Table :=
  mkTable (_header t) (_content t) (selected t) ps (_n_row t).

Definition set_n_row (t : Table) (n : nat) : Table :=
  mkTable (_header t) (_content t) (selected t) (parsers t) n.

(** [Table.header] *)
Definition header (t : Table) : list string := (selected t).*1.

(** [Table.has_column] *)
Definition has_column (t : Table) (column_name : string) : bool :=
  bool_decide (column_name ∈ _header t).

(** [{column: Parser() for column in selected.values()}] *)
Definition default_parsers (sel : list (string * nat)) : gmap nat Parser :=
  foldl (fun ps column => <[column := Parser_]> ps) ∅ (sel.*2).

(** [Table.select].  Nothing is assigned when a column is missing. *)
Definition select (spec : TableSpec) (t : Table) : Table * result bool :=
  match dict_comp (fun column => index column (_header t)) (columns spec) [] with
  | Ok sel =>
      (set_selection t sel (default_parsers sel),
       Ok match drop spec with
          | None => true
          | Some names =>
              forallb (fun column => bool_decide (column ∈ _header t)) names
          end)
  | Raise (ValueError _) => (t, Ok false)
  | Raise e => (t, Raise e)
  end.

(** The loop of [parse_with]:
    [self.parsers[self.selected[label]] = parser] for each item. *)
Fixpoint assign (items : list (string * Parser)) (t : Table)
  : Table * result unit :=
  match items with
  | [] => (t, Ok tt)
  | (label, parser) :: r =>
      match dict_get label (selected t) with
      | Some column => assign r (set_parsers t (<[column := parser]> (parsers t)))
      | None => (t, Raise KeyError)
      end
  end.

(** [Table.parse_with] *)
Definition parse_with (parsers : list (string * Parser)) (strict : bool)
    (t : Table) : Table * result bool :=
  let parsers :=
    if negb strict
    then filter (fun item => dict_in item.1 (selected t) = true) parsers
    else parsers in
  if strict && existsb (fun item => negb (dict_in item.1 (selected t))) parsers
  then (t, Ok false)
  else let (t', r) := assign parsers t in (t', (fun _ => true) <$> r).

(** [self.parsers[index].value(row[index])] *)
Definition cell (t : Table) (row : list string) (index : nat)
  : result pyval :=
  match parsers t !! index with
  | None => Raise KeyError
  | Some parser =>
      match row !! index with
      | None => Raise IndexError
      | Some text => value parser text
      end
  end.

(** The dictionary [__next__] builds from a row. *)
Definition row_dict (t : Table) (row : list string)
  : result (list (string * pyval)) :=
  dict_comp (cell t row) (selected t) [].

(** What a call of [__next__] comes to. *)
Inductive outcome : Type :=
| Return (row_dict : list (string * pyval))
| StopIteration
| Raised (e : exn).

(** [Table.__iter__] *)
Definition iter (t : Table) : Table := set_n_row t 0.

(** [Table.__next__] from row [n] on, [rows] being [_content[n:]].
    Returns the new [_n_row], the rows reported on the standard error
    stream as skipped, and the outcome.  Every skipped row is one more
    nested call of [__next__]; the limit of the interpreter on nested
    calls, which a long run of skipped rows exceeds, is not modelled. *)
Fixpoint next_from (t : Table) (rows : list (list string)) (n : nat)
  : nat * list (list string) * outcome :=
  match rows with
  | [] => (n, [], StopIteration)
  | row :: rest =>
      match row_dict t row with
      | Ok d => (S n, [], Return d)
      | Raise (ValueError _) =>
          let '(n', skipped, o) := next_from t rest (S n) in
          (n', row :: skipped, o)
      | Raise e => (S n, [], Raised e)
      end
  end.

(** [Table.__next__] *)
Definition next (t : Table) : Table * list (list string) * outcome :=
  let '(n, skipped, o) := next_from t (skipn (_n_row t) (_content t)) (_n_row t) in
  (set_n_row t n, skipped, o).

(** [for row_dict in table], the dictionaries collected: [__next__] is
    called until it stops or raises.  Every call that returns moves
    [_n_row] forward, so the calls are at most one more than the rows;
    [fuel] bounds them. *)
Fixpoint for_each (fuel : nat) (t : Table)
  : option (list (list (string * pyval)) * list (list string) * option exn) :=
  match fuel with
  | O => None
  | S fuel =>
      match next t with
      | (t', skipped, Return d) =>
          '(ds, skipped', e) ← for_each fuel t' ;
          Some (d :: ds, skipped ++ skipped', e)
      | (_, skipped, StopIteration) => Some ([], skipped, None)
      | (_, skipped, Raised e) => Some ([], skipped, Some e)
      end
  end.

Definition iterate (t : Table)
  : option (list (list (string * pyval)) * list (list string) * option exn) :=
  for_each (S (length (_content t))) (iter t).

(** *** Notions used to state the properties *)

(** The separator pattern matches the character at position [i] of [l]:
    a character of the separator, with a digit before it and three
    digits after it. *)
Definition digit_at (l : list ascii) (i : nat) : bool :=
  match l !! i with Some c => is_digit c | None => false end.

Definition removed (sep : string) (l : list ascii) (i : nat) : bool :=
  match l !! i with Some c => in_class sep c | None => false end
  && match i with O => false | S j => digit_at l j end
  && digit_at l (i + 1) && digit_at l (i + 2) && digit_at l (i + 3).

(** The characters of [l] at the positions the pattern does not match. *)
Definition kept_characters (sep : string) (l : list ascii) : list ascii :=
  flat_map (fun i => if removed sep l i then [] else option_list (l !! i))
           (seq 0 (length l)).

(** The header has every column the specification names. *)
Definition matches (spec : TableSpec) (header : list string) : Prop :=
  (forall label column, (label, column) ∈ columns spec -> column ∈ header)
  /\ (forall names column,
        drop spec = Some names -> column ∈ names -> column ∈ header).

(** Every selected cell of the row parses. *)
Definition row_parses (t : Table) (row : list string) : Prop :=
  forall label index,
    (label, index) ∈ selected t -> exists v, cell t row index = Ok v.

(** A selected cell of the row fails its parser, and nothing else goes
    wrong in the row. *)
Definition row_malformed (t : Table) (row : list string) : Prop :=
  (exists label index msg,
      (label, index) ∈ selected t
      /\ cell t row index = Raise (ValueError msg))
  /\ (forall label index e,
        (label, index) ∈ selected t -> cell t row index = Raise e ->
        is_ValueError e = true).

(** The rows of a traversal one after the other: the dictionaries of
    the rows that parse, the rows skipped, and the exception that ends
    the traversal early, if any. *)
Fixpoint collect (t : Table) (rows : list (list string))
  : list (list (string * pyval)) * list (list string) * option exn :=
  match rows with
  | [] => ([], [], None)
  | row :: rest =>
      match row_dict t row with
      | Ok d => let '(ds, skipped, e) := collect t rest in
                (d :: ds, skipped, e)
      | Raise (ValueError _) =>
          let '(ds, skipped, e) := collect t rest in
          (ds, row :: skipped, e)
      | Raise e => ([], [], Some e)
      end
  end.

End Tables.

(** ** The specification file ([table_specification] of [secblk/tables.py]) *)

Module TableSpecs.

(** A top-level value of the loaded document: a dictionary, whose values
    may be null, a list, or anything else. *)
Inductive group : Type :=
| Mapping (items : list (string * option string))
| Sequence (items : list string)
| Scalar.

(** [[value for value in raw_data.values() if isinstance(value, dict)]] *)
Definition dict_specs (raw_data : list (string * group))
  : list (list (string * option string)) :=
  omap (fun entry => match entry.2 with
                     | Mapping items => Some items
                     | _ => None
                     end) raw_data.

(** [[value for value in raw_data.values() if isinstance(value, list)]] *)
Definition list_specs (raw_data : list (string * group))
  : list (list string) :=
  omap (fun entry => match entry.2 with
                     | Sequence items => Some items
                     | _ => None
                     end) raw_data.

(** The comprehension that builds [columns]: the pairs of all the
    dictionaries in order, those with a null value left out. *)
Definition columns_of (pairs : list (string * option string))
    (acc : list (string * string)) : list (string * string) :=
  foldl (fun acc pair => match pair.2 with
                         | Some value => dict_set pair.1 value acc
                         | None => acc
                         end) acc pairs.

(** [table_specification], from the loaded document on: the reading of
    the file and the three debug messages are left out. *)
Definition table_specification (raw_data : list (string * group))
  : Tables.TableSpec :=
  Tables.mkTableSpec (columns_of (concat (dict_specs raw_data)) [])
                     (Some (concat (list_specs raw_data))).

(** The last value that is not null among the pairs of a key. *)
Fixpoint last_value (key : string) (pairs : list (string * option string))
  : option string :=
  match pairs with
  | [] => None
  | (k, v) :: r =>
      match last_value key r with
      | Some value => Some value
      | None => if decide (key = k) then v else None
      end
  end.

End TableSpecs.

(** ** The table finder ([find_tables] of [secblk/tables.py]) *)

Module Finder.
Import Tables.

(** The two warnings of [find_tables], each with the header it reports. *)
Inductive report : Type :=
| FailedParsing (header : list string)
| ParsedSuccessfully (header : list string).

(** [find_tables], on the tables as [Table(raw_table)] constructs them.
    Returns the tables found and the warnings logged. *)
Fixpoint find_tables (tables : list Table) (spec : TableSpec)
    (parsers : option (list (string * Parser))) (strict : bool)
  : result (list Table) * list report :=
  match tables with
  | [] => (Ok [], [])
  | table :: rest =>
      match select spec table with
      | (_, Raise e) => (Raise e, [])
      | (_, Ok false) => find_tables rest spec parsers strict
      | (table, Ok true) =>
          match parsers with
          | Some ps =>
              match parse_with ps strict table with
              | (_, Raise e) => (Raise e, [])
              | (table, Ok false) =>
                  let (found, log) := find_tables rest spec parsers strict in
                  (found, FailedParsing (header table) :: log)
              | (table, Ok true) =>
                  let (found, log) := find_tables rest spec parsers strict in
                  (cons table <$> found, ParsedSuccessfully (header table) :: log)
              end
          | None =>
              let (found, log) := find_tables rest spec parsers strict in
              (cons table <$> found, ParsedSuccessfully (header table) :: log)
          end
      end
  end.



End Finder.

(** ** The command line ([str_or_int] in [main] of [secblk/subs.py]) *)

Module Subs.

(** [str_or_int] *)
Definition str_or_int (value : string) : result (Z + string) :=
  match int_ value with
  | Ok n => Ok (inl n)
  | Raise (ValueError _) => Ok (inr value)
  | Raise e => Raise e
  end.

End Subs.

(** ** Further notions used to state properties *)

Module Notions.
Import Tables.

(** The number a run of digits reads as. *)
Definition decimal_value (ds : list ascii) : Z :=
  foldl (fun acc d => (10 * acc + digit_value d)%Z) 0%Z ds.

(** Digits in groups of three, each group with the separator before it. *)
Definition grouped (c : ascii) (groups : list (list ascii)) : list ascii :=
  concat (map (cons c) groups).

Definition all_digits (l : list ascii) : Prop :=
  Forall (fun d => is_digit d = true) l.

(** Every selected column has a parser, and every row a cell for it. *)
Definition rectangular (t : Table) : Prop :=
  forall label index,
    (label, index) ∈ selected t ->
    is_Some (parsers t !! index)
    /\ forall row, row ∈ _content t -> index < length row.

(** The parsers of the table fail with [ValueError] only. *)
Definition parse_errors_only (t : Table) : Prop :=
  forall index parser text e,
    parsers t !! index = Some parser -> value parser text = Raise e ->
    is_ValueError e = true.

(** The parsers of the table are text parsers and integer parsers, the
    latter with no separator or a literal one. *)
Definition text_or_int_parsers (t : Table) : Prop :=
  forall index parser,
    parsers t !! index = Some parser ->
    parser = Parser_ \/ parser = IntParser None
    \/ exists sep,
         literal_separator sep = true /\ parser = IntParser (Some sep).

(** The parser that the items of a mapping assign to a column: the one
    of the last item whose label selects the column. *)
Definition assigned (sel : list (string * nat))
    (ps : list (string * Parser)) (index : nat) : option Parser :=
  last (omap (fun item =>
                if decide (dict_get item.1 sel = Some index)
                then Some item.2 else None) ps).

(** The dictionary of a row all of whose selected cells are kept as
    text. *)
Definition text_row (sel : list (string * nat)) (row : list string)
    (d : list (string * pyval)) : Prop :=
  Forall2 (fun item cell =>
             cell.1 = item.1
             /\ exists text, row !! item.2 = Some text /\ cell.2 = VStr text)
          sel d.

(** A field of a fund is held and true as a condition. *)
Definition held {A} `{Truthy A} (x : option A) : Prop :=
  exists a, x = Some a /\ truthy a = true.

End Notions.


Ltac char_class :=
  unfold literal_char, is_digit, is_space, is_plus, is_minus, is_underscore,
    between in *;
  repeat match goal with
    | H : context [(?a <=? ?b)%nat] |- _ => destruct (Nat.leb_spec a b)
    | |- context [(?a <=? ?b)%nat] => destruct (Nat.leb_spec a b)
    | H : context [(?a =? ?b)%nat] |- _ => destruct (Nat.eqb_spec a b)
    | |- context [(?a =? ?b)%nat] => destruct (Nat.eqb_spec a b)
    end;
  simpl in *; try done; try lia.

(** * Properties *)

(** ** The ISIN pattern *)

Section IsinPattern.
Import Funds.

Lemma isin_char_not_newline c : isin_char c = true -> is_newline c = false.
Proof.
  unfold isin_char, is_upper, is_digit, is_newline, between.
  intros H. apply Nat.eqb_neq. intros E. rewrite E in H. discriminate H.
Qed.

Lemma isin_shape_length l : isin_shape l = true -> length l = 12.
Proof.
  unfold isin_shape. intros H.
  apply andb_prop in H as [H _]. apply andb_prop in H as [H _].
  by apply Nat.eqb_eq.
Qed.

Lemma isin_shape_chars l c :
  isin_shape l = true -> c ∈ l -> isin_char c = true.
Proof.
  unfold isin_shape. intros H Hc.
  apply andb_prop in H as [H H2]. apply andb_prop in H as [_ H1].
  rewrite <- (take_drop 2 l) in Hc. apply elem_of_app in Hc as [Hc|Hc].
  - rewrite forallb_forall in H1. apply list_elem_of_In in Hc.
    unfold isin_char. by rewrite (H1 _ Hc).
  - rewrite forallb_forall in H2. apply list_elem_of_In in Hc. by apply H2.
Qed.

Lemma isin_shape_no_newline l c :
  isin_shape l = true -> c ∈ l -> is_newline c = false.
Proof. intros H Hc. eapply isin_char_not_newline, isin_shape_chars; eauto. Qed.

(** [dot_star] takes the characters before the first line feed. *)
Lemma dot_star_all l :
  (forall c, c ∈ l -> is_newline c = false) -> dot_star l = l.
Proof.
  induction l as [|c r IH]; intros H; simpl; [done|].
  rewrite (H c) by left. f_equal. apply IH. intros d Hd. apply H. by right.
Qed.

Lemma dot_star_prefix l : exists r, l = dot_star l ++ r.
Proof.
  induction l as [|c r [r' IH]]; simpl; [by exists []|].
  destruct (is_newline c); [by eexists|].
  exists r'. simpl. by f_equal.
Qed.

Lemma dot_star_length l : length (dot_star l) <= length l.
Proof.
  induction l as [|c r IH]; simpl; [lia|].
  destruct (is_newline c); simpl; lia.
Qed.

Lemma dot_star_stops l k c :
  l !! k = Some c -> is_newline c = true -> length (dot_star l) <= k.
Proof.
  revert k. induction l as [|d r IH]; intros k Hk Hc; simpl; [lia|].
  destruct k as [|k]; simpl in Hk.
  - injection Hk as ->. rewrite Hc. simpl. lia.
  - destruct (is_newline d); simpl; [lia|]. specialize (IH k Hk Hc). lia.
Qed.

Lemma dot_star_stop_is_newline l c :
  l !! length (dot_star l) = Some c -> is_newline c = true.
Proof.
  induction l as [|d r IH]; simpl; [done|].
  destruct (is_newline d) eqn:E; simpl; [by intros [= <-]|done].
Qed.

Lemma isin_at_Some l i pre code post :
  isin_at l i = Some (pre, code, post) ->
  pre = take i l /\ code = take 12 (drop i l) /\ isin_shape code = true
  /\ post_here (drop 12 (drop i l)) = Some post.
Proof.
  unfold isin_at. destruct (isin_shape (take 12 (drop i l))) eqn:E; [|done].
  destruct (post_here _) eqn:E'; [|done]. intros [= <- <- <-]. done.
Qed.

Lemma isin_backtrack_Some l n pre code post :
  isin_backtrack l n = Some (pre, code, post) ->
  exists i, i <= n /\ isin_at l i = Some (pre, code, post).
Proof.
  induction n as [|n IH]; simpl; destruct (isin_at l _) eqn:E.
  - intros [= ->]. by exists 0.
  - done.
  - intros [= ->]. by exists (S n).
  - intros H. destruct (IH H) as (i & Hi & Hat). exists i. split; [lia|done].
Qed.

Lemma isin_backtrack_None l n :
  (forall i, i <= n -> isin_at l i = None) -> isin_backtrack l n = None.
Proof.
  induction n as [|n IH]; intros H; simpl; rewrite (H _ (le_n _)); [done|].
  apply IH. intros i Hi. apply H. lia.
Qed.

(** Backtracking stops at the first position, from the right, where the
    rest of the pattern matches. *)
Lemma isin_backtrack_rightmost l n i m :
  i <= n -> isin_at l i = Some m ->
  (forall j, i < j -> j <= n -> isin_at l j = None) ->
  isin_backtrack l n = Some m.
Proof.
  intros Hi Hat. induction n as [|n IH]; intros Hj.
  - replace i with 0 in Hat by lia. simpl. by rewrite Hat.
  - simpl. destruct (decide (i = S n)) as [->|Hne].
    + by rewrite Hat.
    + rewrite (Hj (S n)) by lia. apply IH; [lia|]. intros j ? ?. apply Hj; lia.
Qed.

Lemma isin_match_Some l pre code post :
  isin_match l = Some (pre, code, post) -> isin_shape code = true.
Proof.
  intros H. apply isin_backtrack_Some in H as (i & _ & H).
  by apply isin_at_Some in H as (_ & _ & H & _).
Qed.

Lemma isin_occurs_contains l i : isin_occurs l i -> contains_isin l.
Proof.
  intros H. exists (take i l), (take 12 (drop i l)), (drop 12 (drop i l)).
  split; [|done]. by rewrite !take_drop.
Qed.

Lemma isin_match_None l : ~ contains_isin l -> isin_match l = None.
Proof.
  intros H. apply isin_backtrack_None. intros i _. unfold isin_at.
  destruct (isin_shape (take 12 (drop i l))) eqn:E; [|done].
  exfalso. apply H. by apply (isin_occurs_contains l i).
Qed.

Lemma dot_star_drop l j :
  j <= length (dot_star l) -> dot_star (drop j l) = drop j (dot_star l).
Proof.
  revert j. induction l as [|c r IH]; intros j Hj; simpl in *.
  - by rewrite drop_nil.
  - destruct j as [|j]; [done|]. simpl.
    destruct (is_newline c); simpl in *; [lia|]. apply IH. lia.
Qed.

Lemma single_line_drop l k : single_line l -> single_line (drop k l).
Proof.
  intros H j c Hj Hc. rewrite lookup_drop in Hj.
  pose proof (H _ _ Hj Hc). rewrite length_drop. lia.
Qed.

(** On a single line the [post] group always finds the end. *)
Lemma post_here_single_line l :
  single_line l -> post_here l = Some (dot_star l).
Proof.
  intros H. unfold post_here.
  destruct (dot_star_prefix l) as [r Hr].
  assert (drop (length (dot_star l)) l = r) as ->.
  { rewrite Hr at 2. apply drop_app_length. }
  destruct r as [|c [|d r]]; [done..|]. exfalso.
  assert (l !! length (dot_star l) = Some c) as Hc.
  { transitivity ((dot_star l ++ c :: d :: r) !! length (dot_star l));
      [by rewrite <- Hr|].
    rewrite lookup_app_r by lia. by rewrite Nat.sub_diag. }
  pose proof (H _ _ Hc (dot_star_stop_is_newline _ _ Hc)) as Hlen.
  rewrite Hr in Hlen at 2. rewrite length_app in Hlen. simpl in Hlen. lia.
Qed.

(** The match on a single line: the right-most occurrence of the shape. *)
Lemma isin_match_rightmost l i :
  single_line l -> isin_occurs l i ->
  (forall j, i < j -> ~ isin_occurs l j) ->
  isin_match l
  = Some (take i l, take 12 (drop i l), dot_star (drop 12 (drop i l))).
Proof.
  intros Hl Hi Hj. unfold isin_match.
  apply isin_backtrack_rightmost with (i := i).
  - pose proof (isin_shape_length _ Hi) as Hlen.
    rewrite length_take, length_drop in Hlen.
    destruct (l !! length (dot_star l)) as [c|] eqn:E.
    + pose proof (Hl _ _ E (dot_star_stop_is_newline _ _ E)). lia.
    + apply lookup_ge_None_1 in E. lia.
  - unfold isin_at. unfold isin_occurs in Hi. rewrite Hi.
    by rewrite post_here_single_line by by do 2 apply single_line_drop.
  - intros j Hij _. unfold isin_at.
    destruct (isin_shape (take 12 (drop j l))) eqn:E; [|done].
    by destruct (Hj j Hij).
Qed.

(** A line feed before the last character defeats the pattern. *)
Lemma isin_match_line_feed l k c :
  l !! k = Some c -> is_newline c = true -> S k < length l ->
  isin_match l = None.
Proof.
  intros Hk Hc Hlen. apply isin_backtrack_None. intros i Hi.
  pose proof (dot_star_stops _ _ _ Hk Hc) as Hn.
  set (n := length (dot_star l)) in *.
  destruct (lookup_lt_is_Some_2 l n ltac:(lia)) as [c0 Hc0].
  pose proof (dot_star_stop_is_newline _ _ Hc0) as Hnl.
  unfold isin_at.
  destruct (isin_shape (take 12 (drop i l))) eqn:E; [|done].
  destruct (decide (n < i + 12)) as [Hlt|Hge].
  - assert (take 12 (drop i l) !! (n - i) = Some c0) as Hin.
    { rewrite lookup_take_lt by lia. rewrite lookup_drop.
      by replace (i + (n - i)) with n by lia. }
    apply list_elem_of_lookup_2 in Hin.
    rewrite (isin_shape_no_newline _ _ E Hin) in Hnl. discriminate.
  - rewrite (drop_drop l 12 i). unfold post_here.
    rewrite dot_star_drop by (fold n; lia).
    rewrite length_drop, drop_drop. fold n.
    replace (i + 12 + (n - (i + 12))) with n by lia.
    destruct (lookup_lt_is_Some_2 l (S n) ltac:(lia)) as [c1 Hc1].
    rewrite (drop_S _ _ _ Hc0), (drop_S _ _ _ Hc1). done.
Qed.

(** A string of the canonical shape matches as a whole. *)
Lemma isin_match_canonical l :
  isin_shape l = true -> isin_match l = Some ([], l, []).
Proof.
  intros H. pose proof (isin_shape_length _ H) as Hlen.
  assert (isin_occurs l 0) as H0.
  { unfold isin_occurs. rewrite drop_0. by rewrite take_ge by lia. }
  rewrite (isin_match_rightmost l 0); [| |done|].
  - rewrite drop_0, take_0, take_ge, drop_ge by lia. done.
  - intros k c Hk Hc. apply list_elem_of_lookup_2 in Hk.
    rewrite (isin_shape_no_newline _ _ H Hk) in Hc. discriminate.
  - intros j Hj Hocc. apply isin_shape_length in Hocc.
    rewrite length_take, length_drop in Hocc. lia.
Qed.

End IsinPattern.

(** ** Construction of a fund *)

Section FundInit.
Import Funds.

(** The names [__init__] stores for an accepted [name] argument. *)
Lemma init_checked s vn q name v c cur pre code post :
  isin_match (list_ascii_of_string s) = Some (pre, code, post) ->
  name <> NameOther ->
  exists names w,
    init s vn q name v c cur true
    = (Ok (mkFund (string_of_list_ascii code) vn q names v c cur), w).
Proof.
  intros Hm Hname. unfold init. rewrite Hm.
  destruct (truthy (string_of_list_ascii pre)
            || truthy (string_of_list_ascii post));
    destruct name; try done; cbn; eauto.
Qed.

Lemma init_invalid s vn q name v c cur :
  isin_match (list_ascii_of_string s) = None ->
  init s vn q name v c cur true
  = (Raise (TypeError ("Invalid ISIN: " +:+ s)), []).
Proof. intros Hm. unfold init. by rewrite Hm. Qed.

Lemma init_isin s vn q name v c cur f w :
  init s vn q name v c cur true = (Ok f, w) ->
  exists pre code post,
    isin_match (list_ascii_of_string s) = Some (pre, code, post)
    /\ isin f = string_of_list_ascii code.
Proof.
  unfold init.
  destruct (isin_match (list_ascii_of_string s)) as [[[pre code] post]|];
    [|done].
  intros H. exists pre, code, post. split; [done|].
  destruct (truthy (string_of_list_ascii pre)
            || truthy (string_of_list_ascii post));
    destruct name; cbn in H; by simplify_eq.
Qed.

(** A record that already has a canonical code is rebuilt as it is. *)
Lemma init_canonical s vn q names v c cur :
  isin_shape (list_ascii_of_string s) = true ->
  init s vn q (NameList names) v c cur true
  = (Ok (mkFund s vn q names v c cur), []).
Proof.
  intros H. unfold init. rewrite (isin_match_canonical _ H).
  cbn. by rewrite string_of_list_ascii_of_string.
Qed.

(** C7. A fund constructed with the identity check holds a code of the
    canonical shape, two capital letters and ten capital letters or
    digits; the construction fails when the input has no substring of
    that shape.  The input [Prefix CH0012345678 Suffix] gives the code
    [CH0012345678] and a warning about the extra characters, and the
    input [short123] is refused. *)
Theorem init_isin_canonical :
  (forall s vn q name v c cur f w,
      init s vn q name v c cur true = (Ok f, w) ->
      isin_shape (list_ascii_of_string (isin f)) = true)
  /\ (forall s vn q name v c cur,
      ~ contains_isin (list_ascii_of_string s) ->
      init s vn q name v c cur true
      = (Raise (TypeError ("Invalid ISIN: " +:+ s)), []))
  /\ (forall vn q v c cur,
      init "Prefix CH0012345678 Suffix" vn q NameNone v c cur true
      = (Ok (mkFund "CH0012345678" vn q [] v c cur),
         [extra_characters "Prefix CH0012345678 Suffix" "CH0012345678"]))
  /\ (forall vn q name v c cur,
      init "short123" vn q name v c cur true
      = (Raise (TypeError "Invalid ISIN: short123"), [])).
Proof.
  split; [|split; [|split]].
  - intros s vn q name v c cur f w H.
    apply init_isin in H as (pre & code & post & Hm & ->).
    rewrite list_ascii_of_string_of_list_ascii.
    by apply isin_match_Some in Hm.
  - intros. by apply init_invalid, isin_match_None.
  - intros. reflexivity.
  - intros. reflexivity.
Qed.

Lemma init_isin_canonical_witness :
  isin_shape (list_ascii_of_string "CH0012345678") = true.
Proof.
  exact (proj1 init_isin_canonical
           "Prefix CH0012345678 Suffix" None 0%Z NameNone None None None
           _ _ eq_refl).
Defined.

(** C10, as the code has it. For an input on a single line (a line feed,
    if any, is its last character) the constructor with the identity
    check takes the right-most substring of the canonical shape as the
    code, whether the input has one such substring or several; an input
    with a line feed before its last character is refused, whatever
    substrings it has. *)
Theorem init_takes_rightmost_isin :
  (forall s vn q name v c cur i,
      let l := list_ascii_of_string s in
      single_line l -> isin_occurs l i ->
      (forall j, i < j -> ~ isin_occurs l j) ->
      name <> NameOther ->
      exists f w,
        init s vn q name v c cur true = (Ok f, w)
        /\ isin f = string_of_list_ascii (take 12 (drop i l)))
  /\ (forall s vn q name v c cur k ch,
      let l := list_ascii_of_string s in
      l !! k = Some ch -> is_newline ch = true -> S k < length l ->
      init s vn q name v c cur true
      = (Raise (TypeError ("Invalid ISIN: " +:+ s)), [])).
Proof.
  split.
  - intros s vn q name v c cur i l Hl Hi Hj Hname.
    pose proof (isin_match_rightmost l i Hl Hi Hj) as Hm.
    destruct (init_checked s vn q name v c cur _ _ _ Hm Hname)
      as (names & w & ->).
    by eexists _, _.
  - intros s vn q name v c cur k ch l Hk Hch Hlen.
    apply init_invalid. by apply (isin_match_line_feed _ k ch).
Qed.

Lemma init_takes_rightmost_isin_witness :
  exists f w,
    init "CH0012345678 DE0012345678" None 0%Z NameNone None None None true
    = (Ok f, w)
    /\ isin f = "DE0012345678".
Proof.
  apply (proj1 init_takes_rightmost_isin
           "CH0012345678 DE0012345678" None 0%Z NameNone None None None 13).
  - intros k ch Hk Hch.
    do 25 (destruct k as [|k];
           [simpl in Hk; injection Hk as <-; discriminate Hch|]).
    discriminate Hk.
  - reflexivity.
  - intros j Hj Hocc. apply isin_shape_length in Hocc.
    rewrite length_take, length_drop in Hocc.
    change (length (list_ascii_of_string _)) with 25 in Hocc. lia.
  - discriminate.
Defined.

(** C10, as the claim has it, fails: the input of two lines below has two
    substrings of the canonical shape, and the constructor refuses it
    instead of taking the second. *)
Lemma init_two_lines_refused :
  let s := "CH0012345678" +:+ String "010" "DE0012345678" in
  let l := list_ascii_of_string s in
  isin_occurs l 0 /\ isin_occurs l 13
  /\ init s None 0%Z NameNone None None None true
     = (Raise (TypeError ("Invalid ISIN: " +:+ s)), []).
Proof. repeat split. Qed.

End FundInit.

(** ** The merge of two funds *)

Section FundMerge.
Import Funds.

Lemma eq_same (a b : Fund) : isin a = isin b -> eq a b = true.
Proof. unfold eq. intros ->. apply String.eqb_refl. Qed.

(** Different codes: the first check of [__add__] raises. *)
Lemma add_different_isin (a b : Fund) :
  isin a <> isin b ->
  add a b = (Raise (ValueError "Cannot add funds with different ISINs"), []).
Proof.
  intros H. unfold add, eq.
  by destruct (String.eqb_spec (isin a) (isin b)).
Qed.

(** When every check passes, [__add__] builds the merged record. *)
Lemma add_passes (a b : Fund) :
  isin a = isin b ->
  isin_shape (list_ascii_of_string (isin a)) = true ->
  differ neq_int (value_number a) (value_number b) = false ->
  value_check a b = Ok false ->
  differ neq_str (country a) (country b) = false ->
  differ neq_str (currency a) (currency b) = false ->
  add a b
  = (Ok (mkFund (isin a)
           (or_ (value_number a) (value_number b))
           (quantity a + quantity b)
           (_name a ++ _name b)
           (or_ (value a) (value b))
           (or_ (country a) (country b))
           (or_ (currency a) (currency b))), []).
Proof.
  intros Hi Hs Hvn Hv Hco Hcu. unfold add.
  rewrite (eq_same _ _ Hi), Hvn, Hv. cbn. rewrite Hco, Hcu.
  by rewrite (init_canonical _ _ _ _ _ _ _ Hs).
Qed.

(** [x or y] and [y or x] agree when the two fields do not differ and a
    field held by one side only is true as a condition. *)
Lemma or_commutes {A} `{Truthy A} (x y : option A) :
  (forall a b, x = Some a -> y = Some b -> a = b) ->
  one_sided_truthy x y ->
  or_ x y = or_ y x.
Proof.
  intros Heq Hone. unfold or_.
  destruct x as [a|], y as [b|]; cbn in *; try done.
  - rewrite (Heq a b eq_refl eq_refl). by destruct (truthy b).
  - by rewrite Hone.
  - by rewrite Hone.
Qed.

Lemma differ_int_eq (x y : option Z) a b :
  differ neq_int x y = false -> x = Some a -> y = Some b -> a = b.
Proof.
  intros H -> ->. unfold differ, neq_int in H.
  apply negb_false_iff in H. by apply Z.eqb_eq.
Qed.

Lemma differ_str_eq (x y : option string) a b :
  differ neq_str x y = false -> x = Some a -> y = Some b -> a = b.
Proof.
  intros H -> ->. unfold differ, neq_str in H.
  apply negb_false_iff in H. by apply String.eqb_eq.
Qed.

Lemma differ_int_sym (x y : option Z) :
  differ neq_int x y = differ neq_int y x.
Proof.
  destruct x, y; try done. unfold differ, neq_int. by rewrite Z.eqb_sym.
Qed.

Lemma differ_str_sym (x y : option string) :
  differ neq_str x y = differ neq_str y x.
Proof.
  destruct x, y; try done. unfold differ, neq_str. by rewrite String.eqb_sym.
Qed.

(** C1, on the code. The third check of [__add__] compares [self.value]
    with [other.quantity]: two funds with the same code and the same
    value 1000.0 are refused because the quantity of the second is 20,
    and two funds with the values 1000.0 and 10.0 are merged because the
    quantity of the second is 1000. *)
Lemma add_compares_value_with_quantity :
  let a := mkFund "IT1234567890" (Some 100%Z) 10 ["Test Fund"]
             (Some 1000%float) None None in
  let b := mkFund "IT1234567890" (Some 100%Z) 20 ["Test Fund 2"]
             (Some 1000%float) None None in
  let c := mkFund "IT1234567890" (Some 100%Z) 1000 ["Test Fund 3"]
             (Some 10%float) None None in
  isclose 1000 1000 = true
  /\ add a b
     = (Raise (ValueError "Cannot add funds with different quantities"), [])
  /\ isclose 1000 10 = false
  /\ add a c
     = (Ok (mkFund "IT1234567890" (Some 100%Z) 1010
              ["Test Fund"; "Test Fund 3"] (Some 1000%float) None None), []).
Proof. repeat split. Qed.

(** C5, on the code. Two funds with the same code that differ in the
    currency only, CHF against EUR, both with the value 1000.0 and the
    quantity 10: the merge fails in the check of the monetary value, with
    the message about quantities, before the currencies are compared. *)
Lemma add_currency_conflict_misreported :
  let a := mkFund "CH1234567890" None 10 [] (Some 1000%float) None
             (Some "CHF") in
  let b := mkFund "CH1234567890" None 10 [] (Some 1000%float) None
             (Some "EUR") in
  differ neq_str (currency a) (currency b) = true
  /\ isclose 1000 1000 = true
  /\ add a b
     = (Raise (ValueError "Cannot add funds with different quantities"), []).
Proof. repeat split. Qed.

(** C6, on the code. Only the first fund holds a monetary value, 0.0;
    the merged fund holds none, because [self.value or other.value]
    takes 0.0 for an absent value. *)
Lemma add_drops_zero_value :
  let a := mkFund "IT1234567890" None 10 ["Test Fund"]
             (Some 0%float) None None in
  let b := mkFund "IT1234567890" (Some 100%Z) 0 [] None None None in
  add a b
  = (Ok (mkFund "IT1234567890" (Some 100%Z) 10 ["Test Fund"]
           None None None), []).
Proof. reflexivity. Qed.

(** C2, as the claim has it, fails: the two funds below have the same
    code, no value number, country or currency, and monetary values that
    are approximately equal; both merges succeed, and the merged values
    differ, each merge keeping the value of its left operand. *)
Lemma add_close_values_not_equal :
  let x := 0x1.0000000000001p+0%float in
  let a := mkFund "IT1234567890" None 1 ["A"] (Some 1%float) None None in
  let b := mkFund "IT1234567890" None 1 ["B"] (Some x) None None in
  isclose 1 x = true /\ isclose x 1 = true
  /\ add a b
     = (Ok (mkFund "IT1234567890" None 2 ["A"; "B"] (Some 1%float)
              None None), [])
  /\ add b a
     = (Ok (mkFund "IT1234567890" None 2 ["B"; "A"] (Some x) None None), [])
  /\ PrimFloat.eqb 1 x = false
  /\ Some 1%float <> Some x.
Proof.
  repeat split. intros H.
  apply (f_equal (fun o => match o with
                           | Some y => PrimFloat.eqb 1 y
                           | None => false
                           end)) in H.
  discriminate H.
Qed.

(** C2, as the code has it. For two funds [a] and [b] with the same
    canonical code, no differing value number, country or currency, and
    passing the check of the monetary value in both directions, [a + b]
    and [b + a] both succeed; they have the same code and the same
    quantity, the sum of the two, and their names are those of the two
    funds in opposite orders.  The value number, the country and the
    currency are the same in both whenever a field that only one fund
    holds is not zero or empty, and so is the monetary value when moreover
    two values held by both funds are identical. *)
Theorem add_both_directions (a b : Fund) :
  isin a = isin b ->
  isin_shape (list_ascii_of_string (isin a)) = true ->
  differ neq_int (value_number a) (value_number b) = false ->
  differ neq_str (country a) (country b) = false ->
  differ neq_str (currency a) (currency b) = false ->
  value_check a b = Ok false ->
  value_check b a = Ok false ->
  exists ab ba,
    add a b = (Ok ab, []) /\ add b a = (Ok ba, [])
    /\ isin ab = isin a /\ isin ba = isin ab
    /\ quantity ab = (quantity a + quantity b)%Z
    /\ quantity ba = quantity ab
    /\ _name ab = _name a ++ _name b
    /\ _name ba = _name b ++ _name a
    /\ (one_sided_truthy (value_number a) (value_number b) ->
        value_number ab = value_number ba)
    /\ (one_sided_truthy (country a) (country b) ->
        country ab = country ba)
    /\ (one_sided_truthy (currency a) (currency b) ->
        currency ab = currency ba)
    /\ (one_sided_truthy (value a) (value b) ->
        (forall x y, value a = Some x -> value b = Some y -> x = y) ->
        value ab = value ba).
Proof.
  intros Hi Hs Hvn Hco Hcu Hab Hba.
  eexists _, _. split; [|split].
  - by apply add_passes.
  - apply add_passes; try done.
    + by rewrite <- Hi.
    + by rewrite differ_int_sym.
    + by rewrite differ_str_sym.
    + by rewrite differ_str_sym.
  - cbn. repeat split.
    + done.
    + lia.
    + intros. apply or_commutes; [|done]. intros x y. by apply differ_int_eq.
    + intros. apply or_commutes; [|done]. intros x y. by apply differ_str_eq.
    + intros. apply or_commutes; [|done]. intros x y. by apply differ_str_eq.
    + intros. by apply or_commutes.
Qed.

Lemma add_both_directions_witness :
  let a := mkFund "IT1234567890" (Some 100%Z) 10 ["Test Fund"]
             None None None in
  let b := mkFund "IT1234567890" None 1 ["Test Fund 2"] None None None in
  exists ab ba,
    add a b = (Ok ab, []) /\ add b a = (Ok ba, [])
    /\ isin ba = isin ab /\ quantity ba = quantity ab
    /\ _name ab = ["Test Fund"; "Test Fund 2"]
    /\ _name ba = ["Test Fund 2"; "Test Fund"]
    /\ value_number ab = value_number ba
    /\ value ab = value ba.
Proof.
  intros a b.
  destruct (add_both_directions a b) as
    (ab & ba & Hab & Hba & _ & Hi & _ & Hq & Hn & Hn' & Hvn & _ & _ & Hv);
    try reflexivity.
  exists ab, ba. repeat split; try done.
  - by apply Hvn.
  - apply Hv; [done|]. intros x y Hx. discriminate Hx.
Defined.

End FundMerge.

(** ** Dictionaries *)

Section DictFacts.
Context {K : Type} `{EqDecision K}.

Lemma dict_get_elem {V} (k : K) (v : V) (d : list (K * V)) :
  dict_get k d = Some v -> (k, v) ∈ d.
Proof.
  induction d as [|[k' v'] r IH]; simpl; [done|].
  destruct (decide (k = k')) as [->|].
  - intros [= ->]. left.
  - intros H. right. by apply IH.
Qed.

Lemma dict_in_elem {V} (k : K) (v : V) (d : list (K * V)) :
  (k, v) ∈ d -> dict_in k d = true.
Proof.
  unfold dict_in. induction d as [|[k' v'] r IH]; intros H; simpl.
  - by apply elem_of_nil in H.
  - destruct (decide (k = k')); [done|].
    apply elem_of_cons in H as [[= ]|H]; [done|]. by apply IH.
Qed.

(** A comprehension all of whose values evaluate gives a dictionary. *)
Lemma dict_comp_ok {A B} (f : A -> result B) (items : list (K * A)) acc :
  (forall k a, (k, a) ∈ items -> exists b, f a = Ok b) ->
  exists d, dict_comp f items acc = Ok d.
Proof.
  revert acc. induction items as [|[k a] r IH]; intros acc H; simpl.
  - by eexists.
  - destruct (H k a) as [b ->]; [left|].
    apply IH. intros k' a' Hin. apply (H k' a'). by right.
Qed.

(** A comprehension with a value that raises [ValueError], and none that
    raises anything else, raises [ValueError]. *)
Lemma dict_comp_ValueError {A B} (f : A -> result B)
    (items : list (K * A)) acc :
  (exists k a msg, (k, a) ∈ items /\ f a = Raise (ValueError msg)) ->
  (forall k a e, (k, a) ∈ items -> f a = Raise e -> is_ValueError e = true) ->
  exists msg, dict_comp f items acc = Raise (ValueError msg).
Proof.
  revert acc. induction items as [|[k a] r IH]; intros acc Hbad Hall; simpl.
  - destruct Hbad as (? & ? & ? & Hin & _). by apply elem_of_nil in Hin.
  - destruct (f a) as [b|e] eqn:E.
    + apply IH.
      * destruct Hbad as (k' & a' & msg & Hin & Hf).
        apply elem_of_cons in Hin as [[= -> ->]|Hin]; [congruence|].
        by exists k', a', msg.
      * intros k' a' e Hin. apply (Hall k' a'). by right.
    + pose proof (Hall k a e ltac:(left) E) as He.
      destruct e; try done. by eexists.
Qed.

Lemma index_elem (x : K) (l : list K) :
  x ∈ l -> exists i, index x l = Ok i.
Proof.
  induction l as [|y r IH]; intros H; simpl.
  - by apply elem_of_nil in H.
  - destruct (decide (y = x)); [by eexists|].
    apply elem_of_cons in H as [->|H]; [done|].
    destruct (IH H) as [i ->]. by eexists.
Qed.

End DictFacts.

(** ** Selection and parser assignment *)

Section TableSelect.
Import Tables.

Lemma default_parsers_fold (cols : list nat) (ps : gmap nat Parser) c :
  foldl (fun ps column => <[column := Parser_]> ps) ps cols !! c
  = if decide (c ∈ cols) then Some Parser_ else ps !! c.
Proof.
  revert ps. induction cols as [|x r IH]; intros ps; simpl.
  - destruct (decide (c ∈ [])) as [H|]; [by apply elem_of_nil in H|done].
  - rewrite IH. destruct (decide (c ∈ r)) as [Hr|Hr].
    + rewrite decide_True; [done|by right].
    + destruct (decide (c = x)) as [->|Hne].
      * rewrite lookup_insert_eq. rewrite decide_True; [done|left].
      * rewrite lookup_insert_ne by done.
        rewrite decide_False; [done|].
        intros [?|?]%elem_of_cons; done.
Qed.

(** After a selection the parsers are exactly the identity parser on
    the selected columns. *)
Lemma default_parsers_lookup (sel : list (string * nat)) c :
  default_parsers sel !! c
  = if decide (c ∈ sel.*2) then Some Parser_ else None.
Proof. unfold default_parsers. by rewrite default_parsers_fold. Qed.

Lemma select_matches spec t :
  matches spec (_header t) ->
  exists sel,
    dict_comp (fun column => index column (_header t)) (columns spec) []
    = Ok sel
    /\ forall t', _header t' = _header t ->
         select spec t'
         = (set_selection t' sel (default_parsers sel), Ok true).
Proof.
  intros [Hcol Hdrop].
  destruct (dict_comp_ok (fun column => index column (_header t))
              (columns spec) []) as [sel Hsel].
  { intros label column Hin. apply index_elem. by apply (Hcol label). }
  exists sel. split; [done|]. intros t' Ht'. unfold select.
  rewrite Ht', Hsel. do 2 f_equal.
  destruct (drop spec) as [names|] eqn:E; [|done].
  apply forallb_forall. intros column Hin. apply bool_decide_eq_true.
  apply (Hdrop names); [done|]. by apply list_elem_of_In.
Qed.

(** C8. On a table whose header has the columns of a specification,
    [select] with that specification succeeds, and a second [select]
    with it succeeds again and gives the same table, so the same
    selection, whatever parsers were assigned in between; after each call
    every selected column has the identity parser. *)
Theorem select_idempotent spec t :
  matches spec (_header t) ->
  exists t1,
    select spec t = (t1, Ok true)
    /\ select spec t1 = (t1, Ok true)
    /\ (forall ps, select spec (set_parsers t1 ps) = (t1, Ok true))
    /\ (forall label column,
          dict_get label (selected t1) = Some column ->
          parsers t1 !! column = Some Parser_).
Proof.
  intros H. destruct (select_matches spec t H) as (sel & _ & Hsel).
  exists (set_selection t sel (default_parsers sel)).
  split; [by apply Hsel|]. split; [by rewrite Hsel|]. split.
  - intros ps. by rewrite Hsel.
  - intros label column Hget. cbn in *.
    rewrite default_parsers_lookup. rewrite decide_True; [done|].
    apply dict_get_elem in Hget.
    apply list_elem_of_fmap. by exists (label, column).
Qed.

(** C9. A strict [parse_with] whose mapping names a label that is not
    selected returns [False] and leaves the table, and so all its parser
    assignments, as it was: the labels are checked before any parser is
    assigned. *)
Theorem parse_with_strict_rejects t (ps : list (string * Parser)) label p :
  (label, p) ∈ ps ->
  dict_in label (selected t) = false ->
  parse_with ps true t = (t, Ok false).
Proof.
  intros Hin Hsel. unfold parse_with. cbn.
  replace (existsb _ ps) with true; [done|].
  symmetry. apply existsb_exists. exists (label, p). split.
  - by apply list_elem_of_In.
  - cbn. by rewrite Hsel.
Qed.

Lemma select_idempotent_witness :
  let t := mkTable ["Full Name"; "Numeric Id"; "Amount"]
             [["Bar"; "2"; "21000"]; ["Baz"; "X"; "5"]] [] ∅ 0 in
  let spec := mkTableSpec
                [("name", "Full Name"); ("id", "Numeric Id"); ("A", "Amount")]
                (Some ["Amount"]) in
  exists t1,
    select spec t = (t1, Ok true)
    /\ select spec t1 = (t1, Ok true)
    /\ (forall ps, select spec (set_parsers t1 ps) = (t1, Ok true))
    /\ (forall label column,
          dict_get label (selected t1) = Some column ->
          parsers t1 !! column = Some Parser_).
Proof.
  intros t spec. apply (select_idempotent spec t).
  split; cbn.
  - intros label column Hin.
    rewrite !elem_of_cons, elem_of_nil in Hin.
    destruct Hin as [[= -> ->]|[[= -> ->]|[[= -> ->]|[]]]];
      by apply (bool_decide_unpack _).
  - intros names column [= <-] Hin.
    apply list_elem_of_singleton in Hin as ->.
    by apply (bool_decide_unpack _).
Defined.

Lemma parse_with_strict_rejects_witness :
  let t := mkTable ["Full Name"; "Numeric Id"] [["Bar"; "2"]]
             [("name", 0); ("id", 1)] (default_parsers [("name", 0); ("id", 1)])
             0 in
  parse_with [("id", IntParser None); ("amount", Parser_)] true t
  = (t, Ok false).
Proof.
  intros t.
  apply (parse_with_strict_rejects t _ "amount" Parser_).
  - right. left.
  - reflexivity.
Defined.

End TableSelect.

(** ** Iteration over the rows *)

Section TableIteration.
Import Tables.

Lemma collect_set_n_row t m rows :
  collect (set_n_row t m) rows = collect t rows.
Proof.
  induction rows as [|row rest IH]; simpl; [done|].
  rewrite IH. reflexivity.
Qed.

(** One call of [__next__] against the rows one after the other. *)
Lemma next_from_collect t rows n :
  match next_from t rows n with
  | (n', skipped, Return d) =>
      n < n' /\ n' <= n + length rows
      /\ collect t rows
         = (let '(ds, skipped', e) := collect t (skipn (n' - n) rows) in
            (d :: ds, skipped ++ skipped', e))
  | (_, skipped, StopIteration) => collect t rows = ([], skipped, None)
  | (_, skipped, Raised e) => collect t rows = ([], skipped, Some e)
  end.
Proof.
  revert n. induction rows as [|row rest IH]; intros n; simpl; [done|].
  destruct (row_dict t row) as [d|e] eqn:E.
  - split; [lia|]. split; [lia|].
    replace (S n - n) with 1 by lia. simpl. rewrite drop_0.
    by destruct (collect t rest) as [[ds skipped] e].
  - destruct e; try done.
    specialize (IH (S n)).
    destruct (next_from t rest (S n)) as [[n' skipped] o].
    destruct o as [d| |e].
    + destruct IH as (Hlt & Hle & ->). split; [lia|]. split; [lia|].
      replace (n' - n) with (S (n' - S n)) by lia. simpl.
      by destruct (collect t (skipn (n' - S n) rest)) as [[ds skipped'] e].
    + by rewrite IH.
    + by rewrite IH.
Qed.

(** With fuel for the rows that are left, the loop gives what the rows
    give one after the other. *)
Lemma for_each_collect fuel t :
  length (_content t) - _n_row t < fuel ->
  for_each fuel t = Some (collect t (skipn (_n_row t) (_content t))).
Proof.
  revert t. induction fuel as [|fuel IH]; intros t Hfuel; [lia|].
  simpl. unfold next.
  pose proof (next_from_collect t (skipn (_n_row t) (_content t)) (_n_row t))
    as Hnext.
  destruct (next_from t (skipn (_n_row t) (_content t)) (_n_row t))
    as [[n' skipped] o].
  destruct o as [d| |e].
  - destruct Hnext as (Hlt & Hle & ->). rewrite length_drop in Hle.
    rewrite IH by (cbn; lia). cbn.
    rewrite collect_set_n_row, drop_drop.
    replace (_n_row t + (n' - _n_row t)) with n' by lia.
    by destruct (collect t (skipn n' (_content t))) as [[ds skipped'] e].
  - by rewrite Hnext.
  - by rewrite Hnext.
Qed.

(** A full traversal ends, and gives what the rows give one after the
    other. *)
Lemma iterate_collect t : iterate t = Some (collect t (_content t)).
Proof.
  unfold iterate. rewrite for_each_collect by (cbn; lia).
  unfold iter. by rewrite collect_set_n_row.
Qed.

Lemma row_parses_dict t row :
  row_parses t row -> exists d, row_dict t row = Ok d.
Proof. intros H. by apply dict_comp_ok. Qed.

Lemma row_malformed_dict t row :
  row_malformed t row -> exists msg, row_dict t row = Raise (ValueError msg).
Proof. intros [Hbad Hall]. by apply dict_comp_ValueError. Qed.

Lemma collect_parses t rows :
  Forall (row_parses t) rows ->
  exists ds,
    collect t rows = (ds, [], None)
    /\ Forall2 (fun row d => row_dict t row = Ok d) rows ds.
Proof.
  induction 1 as [|row rest Hrow _ (ds & IH & Hds)]; simpl.
  - by exists [].
  - destruct (row_parses_dict _ _ Hrow) as [d Hd]. rewrite Hd, IH.
    exists (d :: ds). split; [done|]. by constructor.
Qed.

Lemma collect_one_malformed t before bad after :
  Forall (row_parses t) before -> row_malformed t bad ->
  Forall (row_parses t) after ->
  exists ds,
    collect t (before ++ bad :: after) = (ds, [bad], None)
    /\ Forall2 (fun row d => row_dict t row = Ok d) (before ++ after) ds.
Proof.
  intros Hbefore Hbad Hafter.
  induction Hbefore as [|row rest Hrow _ (ds & IH & Hds)]; simpl.
  - destruct (row_malformed_dict _ _ Hbad) as [msg ->].
    destruct (collect_parses _ _ Hafter) as (ds & -> & Hds). by exists ds.
  - destruct (row_parses_dict _ _ Hrow) as [d Hd]. rewrite Hd, IH.
    exists (d :: ds). split; [done|]. by constructor.
Qed.

(** C3. A table with N rows, one of which has a selected cell that fails
    its parser while every selected cell of the other rows parses: a
    full traversal ends without raising and yields N-1 dictionaries,
    those of the other rows in the order of the rows; the malformed row
    is the only one skipped. *)
Theorem iterate_skips_malformed_row t before bad after :
  _content t = before ++ bad :: after ->
  Forall (row_parses t) before ->
  row_malformed t bad ->
  Forall (row_parses t) after ->
  exists ds,
    iterate t = Some (ds, [bad], None)
    /\ length ds = length (_content t) - 1
    /\ Forall2 (fun row d => row_dict t row = Ok d) (before ++ after) ds.
Proof.
  intros Hcontent Hbefore Hbad Hafter.
  destruct (collect_one_malformed t before bad after Hbefore Hbad Hafter)
    as (ds & Hcollect & Hds).
  exists ds. split; [|split; [|done]].
  - by rewrite iterate_collect, Hcontent, Hcollect.
  - apply Forall2_length in Hds. rewrite Hcontent, !length_app in *.
    simpl. lia.
Qed.

Lemma iterate_skips_malformed_row_witness :
  let sel := [("name", 0); ("id", 1); ("A", 2)] in
  let bar := ["Bar"; "2"; "21'000"] in
  let baz := ["Baz"; "X"; "5"] in
  let qux := ["Qux"; "1'100"; "123"] in
  let t := mkTable ["Full Name"; "Numeric Id"; "Amount"] [bar; baz; qux] sel
             (<[2 := IntParser (Some "'")]>
                (<[1 := IntParser (Some "'")]> (default_parsers sel))) 0 in
  exists ds,
    iterate t = Some (ds, [baz], None)
    /\ length ds = 2
    /\ Forall2 (fun row d => row_dict t row = Ok d) [bar; qux] ds.
Proof.
  intros sel bar baz qux t.
  assert (forall row, row = bar \/ row = qux -> row_parses t row) as Hok.
  { intros row Hrow label index Hin. unfold t, sel in Hin. cbn in Hin.
    rewrite !elem_of_cons, elem_of_nil in Hin.
    destruct Hin as [[= -> ->]|[[= -> ->]|[[= -> ->]|[]]]];
      destruct Hrow as [-> | ->]; by eexists. }
  apply (iterate_skips_malformed_row t [bar] baz [qux]).
  - reflexivity.
  - constructor; [|constructor]. apply Hok. by left.
  - split.
    + exists "id", 1. eexists. split; [right; left|reflexivity].
    + intros label index e Hin. unfold t, sel in Hin. cbn in Hin.
      rewrite !elem_of_cons, elem_of_nil in Hin.
      destruct Hin as [[= -> ->]|[[= -> ->]|[[= -> ->]|[]]]];
        intros [= <-]; reflexivity.
  - constructor; [|constructor]. apply Hok. by right.
Defined.

End TableIteration.

(** ** The conversion of a string to an integer *)

Section IntLiteral.

Lemma digit_not_space c : is_digit c = true -> is_space c = false.
Proof. char_class. Qed.
Lemma digit_not_underscore c : is_digit c = true -> is_underscore c = false.
Proof. char_class. Qed.
Lemma digit_not_plus c : is_digit c = true -> is_plus c = false.
Proof. char_class. Qed.
Lemma digit_not_minus c : is_digit c = true -> is_minus c = false.
Proof. char_class. Qed.
Lemma space_not_digit c : is_space c = true -> is_digit c = false.
Proof. char_class. Qed.
Lemma space_not_underscore c : is_space c = true -> is_underscore c = false.
Proof. char_class. Qed.
Lemma plus_not_space c : is_plus c = true -> is_space c = false.
Proof. char_class. Qed.
Lemma minus_not_space c : is_minus c = true -> is_space c = false.
Proof. char_class. Qed.
Lemma minus_not_plus c : is_minus c = true -> is_plus c = false.
Proof. char_class. Qed.

Lemma skip_spaces_split l :
  exists ws, l = ws ++ skip_spaces l /\ spaces ws.
Proof.
  induction l as [|c r (ws & IH & Hws)]; simpl.
  - exists []. split; [done|constructor].
  - destruct (is_space c) eqn:E.
    + exists (c :: ws). split; [simpl; by f_equal|by constructor].
    + exists []. split; [done|constructor].
Qed.

Lemma skip_spaces_nil l : skip_spaces l = [] -> spaces l.
Proof.
  intros H. destruct (skip_spaces_split l) as (ws & Hl & Hws).
  rewrite H, app_nil_r in Hl. by subst.
Qed.

Lemma skip_spaces_app ws l :
  spaces ws -> skip_spaces (ws ++ l) = skip_spaces l.
Proof. induction 1 as [|c r Hc _ IH]; simpl; [done|]. by rewrite Hc. Qed.

Lemma skip_spaces_spaces ws : spaces ws -> skip_spaces ws = [].
Proof.
  intros H. rewrite <- (app_nil_r ws). by rewrite skip_spaces_app.
Qed.

Lemma count_digits_nil : count_digits [] = 0.
Proof. reflexivity. Qed.

Lemma count_digits_cons c l :
  count_digits (c :: l)
  = if is_digit c then S (count_digits l) else count_digits l.
Proof. unfold count_digits. simpl. by destruct (is_digit c). Qed.

(** What [int_digits] reads is in the grammar. *)
Lemma int_digits_sound l : forall need acc n v n' rest,
  int_digits need acc n l = Some (v, n', rest) ->
  exists ds,
    l = ds ++ rest /\ n' = n + count_digits ds
    /\ if need then digits ds else digit_tail ds.
Proof.
  induction l as [|c r IH]; intros need acc n v n' rest; simpl.
  - destruct need; [done|]. intros [= <- <- <-].
    exists []. split; [done|]. split; [rewrite count_digits_nil; lia|constructor].
  - destruct (is_digit c) eqn:Ec.
    + intros H. apply IH in H as (ds & -> & -> & Hds).
      exists (c :: ds). rewrite count_digits_cons, Ec.
      split; [done|]. split; [lia|].
      destruct need; [by exists c, ds|by constructor].
    + destruct need; [done|].
      destruct (is_underscore c) eqn:Eu.
      * intros H. apply IH in H as (ds & -> & -> & (d & t & -> & Hd & Ht)).
        exists (c :: d :: t).
        rewrite (count_digits_cons c), Ec.
        split; [done|]. split; [done|]. by constructor.
      * intros [= <- <- <-]. exists [].
        split; [done|]. split; [rewrite count_digits_nil; lia|constructor].
Qed.

(** What is in the grammar, [int_digits] reads to its end. *)
Lemma int_digits_complete ds :
  digit_tail ds -> forall acc n rest, stops rest ->
  exists v,
    int_digits false acc n (ds ++ rest)
    = Some (v, n + count_digits ds, rest).
Proof.
  induction 1 as [|c r Hc _ IH|u c r Hu Hc _ IH]; intros acc n rest Hrest.
  - simpl. exists acc. rewrite count_digits_nil, Nat.add_0_r.
    destruct rest as [|c r]; [done|]. simpl. by destruct Hrest as [-> ->].
  - simpl. rewrite Hc, count_digits_cons, Hc.
    destruct (IH (10 * acc + digit_value c)%Z (S n) rest Hrest) as [v ->].
    exists v. do 3 f_equal. lia.
  - simpl. rewrite Hc, Hu.
    replace (is_digit u) with false by (symmetry; revert Hu; char_class).
    rewrite !count_digits_cons, Hc.
    replace (is_digit u) with false by (symmetry; revert Hu; char_class).
    destruct (IH (10 * acc + digit_value c)%Z (S n) rest Hrest) as [v ->].
    exists v. do 3 f_equal. lia.
Qed.

Lemma int_sign_split l :
  exists sg, l = sg ++ (int_sign l).2 /\ sign sg.
Proof.
  destruct l as [|c r]; simpl.
  - exists []. split; [done|by left].
  - destruct (is_plus c) eqn:Ep; [|destruct (is_minus c) eqn:Em].
    + exists [c]. split; [done|]. right. exists c. auto.
    + exists [c]. split; [done|]. right. exists c. auto.
    + exists []. split; [done|by left].
Qed.

Lemma int_sign_digits sg ds rest :
  sign sg -> digits ds -> (int_sign (sg ++ ds ++ rest)).2 = ds ++ rest.
Proof.
  intros [->|(c & -> & Hc)] (d & t & -> & Hd & _); simpl.
  - by rewrite (digit_not_plus _ Hd), (digit_not_minus _ Hd).
  - destruct Hc as [->| Hm]; [done|].
    by rewrite (minus_not_plus _ Hm), Hm.
Qed.

(** [int] fails with [ValueError] only. *)
Lemma int_raises s e : int_ s = Raise e -> is_ValueError e = true.
Proof.
  unfold int_.
  destruct (int_sign (skip_spaces (list_ascii_of_string s))) as [sg l].
  destruct (int_digits true 0 0 l) as [[[v n] rest]|]; [|by intros [= <-]].
  destruct (int_max_str_digits <? n)%nat; [by intros [= <-]|].
  destruct (skip_spaces rest); [done|by intros [= <-]].
Qed.

(** [int] accepts the literals of the grammar. *)
Lemma int_ok_literal s z :
  int_ s = Ok z -> int_literal (list_ascii_of_string s).
Proof.
  unfold int_.
  destruct (skip_spaces_split (list_ascii_of_string s)) as (ws1 & Hl & Hws1).
  destruct (int_sign_split (skip_spaces (list_ascii_of_string s)))
    as (sg & Hsg & Hsign).
  destruct (int_sign (skip_spaces (list_ascii_of_string s))) as [k l].
  simpl in Hsg.
  destruct (int_digits true 0 0 l) as [[[v n] rest]|] eqn:Ed; [|done].
  destruct (Nat.ltb_spec int_max_str_digits n) as [|Hn]; [done|].
  destruct (skip_spaces rest) eqn:Er; [|done]. intros _.
  apply int_digits_sound in Ed as (ds & -> & -> & Hds).
  exists ws1, sg, ds, rest. rewrite Hl at 1. rewrite Hsg.
  repeat split; try done. by apply skip_spaces_nil.
Qed.

(** And nothing else. *)
Lemma int_literal_ok s :
  int_literal (list_ascii_of_string s) -> exists z, int_ s = Ok z.
Proof.
  intros (ws1 & sg & ds & ws2 & Hl & Hws1 & Hsg & Hds & Hn & Hws2).
  unfold int_. rewrite Hl, (skip_spaces_app _ _ Hws1).
  assert (skip_spaces (sg ++ ds ++ ws2) = sg ++ ds ++ ws2) as ->.
  { destruct Hds as (d & t & -> & Hd & _).
    destruct Hsg as [->|(c & -> & [Hc|Hc])]; simpl.
    - by rewrite (digit_not_space _ Hd).
    - by rewrite (plus_not_space _ Hc).
    - by rewrite (minus_not_space _ Hc). }
  pose proof (int_sign_digits sg ds ws2 Hsg Hds) as Hs.
  destruct (int_sign (sg ++ ds ++ ws2)) as [k l]. simpl in Hs. subst l.
  destruct Hds as (d & t & -> & Hd & Ht).
  simpl. rewrite Hd.
  destruct (int_digits_complete t Ht (10 * 0 + digit_value d)%Z 1 ws2)
    as [v Hv].
  { destruct Hws2 as [|c r Hc _]; [done|].
    split; [by apply space_not_digit|by apply space_not_underscore]. }
  rewrite Hv. rewrite count_digits_cons, Hd in Hn.
  destruct (Nat.ltb_spec int_max_str_digits (1 + count_digits t));
    [lia|].
  rewrite (skip_spaces_spaces _ Hws2). by eexists.
Qed.

Lemma digit_tail_chars l c :
  digit_tail l -> c ∈ l -> literal_char c = true.
Proof.
  induction 1 as [|d r Hd _ IH|u d r Hu Hd _ IH]; intros Hc.
  - by apply elem_of_nil in Hc.
  - apply elem_of_cons in Hc as [->|Hc]; [|by apply IH].
    unfold literal_char. by rewrite Hd.
  - apply elem_of_cons in Hc as [->|Hc].
    { unfold literal_char. rewrite Hu. by rewrite !orb_true_r. }
    apply elem_of_cons in Hc as [->|Hc]; [|by apply IH].
    unfold literal_char. by rewrite Hd.
Qed.

(** A literal is made of digits, white space, underscores and signs. *)
Lemma int_literal_chars l c :
  int_literal l -> c ∈ l -> literal_char c = true.
Proof.
  intros (ws1 & sg & ds & ws2 & -> & Hws1 & Hsg & Hds & _ & Hws2) Hc.
  assert (forall ws, spaces ws -> c ∈ ws -> literal_char c = true) as Hsp.
  { intros ws Hws Hin. unfold spaces in Hws. rewrite Forall_forall in Hws.
    unfold literal_char. rewrite (Hws c Hin). by rewrite !orb_true_r. }
  rewrite !elem_of_app in Hc. destruct Hc as [Hc|[Hc|[Hc|Hc]]].
  - by apply (Hsp ws1).
  - destruct Hsg as [->|(s & -> & Hs)]; [by apply elem_of_nil in Hc|].
    apply list_elem_of_singleton in Hc as ->. unfold literal_char.
    destruct Hs as [->| ->]; by rewrite !orb_true_r.
  - destruct Hds as (d & t & -> & Hd & Ht).
    apply (digit_tail_chars (d :: t)); [by constructor|done].
  - by apply (Hsp ws2).
Qed.

End IntLiteral.

(** ** The integer parser *)

Section IntParserValue.
Import Tables.

Lemma three_digits_at (r : list ascii) :
  three_digits r = digit_at r 0 && digit_at r 1 && digit_at r 2.
Proof.
  unfold digit_at. destruct r as [|a [|b [|c r]]]; simpl; try done.
  - by rewrite andb_false_r.
  - by rewrite andb_false_r.
Qed.

Lemma digit_at_app_r (pre r : list ascii) k :
  digit_at (pre ++ r) (length pre + k) = digit_at r k.
Proof.
  unfold digit_at. rewrite lookup_app_r by lia.
  by replace (length pre + k - length pre) with k by lia.
Qed.

Lemma after_digit_last (pre r : list ascii) :
  match length pre with
  | O => false
  | S j => digit_at (pre ++ r) j
  end = after_digit (last pre).
Proof.
  rewrite last_lookup. unfold digit_at, after_digit.
  destruct (length pre) as [|j] eqn:E.
  - by destruct pre.
  - simpl. by rewrite lookup_app_l by lia.
Qed.

(** The scan drops the characters at the positions the pattern matches. *)
Lemma sub_thousands_kept sep (r : list ascii) : forall pre,
  sub_thousands sep (last pre) r
  = flat_map (fun i => if removed sep (pre ++ r) i then []
                       else option_list ((pre ++ r) !! i))
             (seq (length pre) (length r)).
Proof.
  induction r as [|c r IH]; intros pre; [done|].
  simpl. specialize (IH (pre ++ [c])).
  rewrite last_snoc, length_app, Nat.add_1_r, <- app_assoc in IH.
  simpl in IH. rewrite <- IH.
  assert (removed sep (pre ++ c :: r) (length pre)
          = in_class sep c && after_digit (last pre) && three_digits r)
    as ->.
  { unfold removed. rewrite after_digit_last, three_digits_at.
    rewrite lookup_app_r, Nat.sub_diag by lia. simpl.
    rewrite !(digit_at_app_r pre (c :: r)).
    rewrite !andb_assoc. done. }
  rewrite lookup_app_r, Nat.sub_diag by lia. simpl.
  by destruct (in_class sep c && after_digit (last pre) && three_digits r).
Qed.

Lemma strip_thousands_kept sep text :
  truthy sep = true ->
  list_ascii_of_string (strip_thousands (Some sep) text)
  = kept_characters sep (list_ascii_of_string text).
Proof.
  intros Hsep. unfold strip_thousands. rewrite Hsep.
  rewrite list_ascii_of_string_of_list_ascii.
  apply (sub_thousands_kept sep _ []).
Qed.

Lemma kept_characters_elem sep (l : list ascii) i c :
  l !! i = Some c -> removed sep l i = false -> c ∈ kept_characters sep l.
Proof.
  intros Hi Hr. apply list_elem_of_In. unfold kept_characters.
  apply in_flat_map. exists i. split.
  - apply in_seq. apply lookup_lt_Some in Hi. lia.
  - rewrite Hr, Hi. by left.
Qed.

(** C4, as the code has it. With a thousand separator whose characters
    stand for themselves in a character class, the parser drops
    a separator character exactly where a digit comes before it and
    three digits, or more, come after it.  The parse then succeeds
    exactly when the text that is left is an integer literal: white
    space, an optional sign, digits with single underscores between
    them, white space, and no more digits than the interpreter allows.
    It fails with [ValueError] otherwise; in particular when it has kept
    a separator character that cannot be part of a literal. *)
Theorem IntParser_value_separator sep text :
  truthy sep = true ->
  literal_separator sep = true ->
  let l := list_ascii_of_string text in
  list_ascii_of_string (strip_thousands (Some sep) text)
  = kept_characters sep l
  /\ ((exists n, IntParser_value (Some sep) text = Ok (VInt n))
      <-> int_literal (kept_characters sep l))
  /\ (forall e,
        IntParser_value (Some sep) text = Raise e -> is_ValueError e = true)
  /\ (forall i c,
        l !! i = Some c -> in_class sep c = true ->
        literal_char c = false -> removed sep l i = false ->
        exists msg, IntParser_value (Some sep) text = Raise (ValueError msg)).
Proof.
  intros Hsep _ l. pose proof (strip_thousands_kept sep text Hsep) as Hk.
  fold l in Hk.
  assert ((exists n, IntParser_value (Some sep) text = Ok (VInt n))
          <-> int_literal (kept_characters sep l)) as Hiff.
  { unfold IntParser_value. rewrite <- Hk. split.
    - intros [n Hn].
      destruct (int_ (strip_thousands (Some sep) text)) as [z|e] eqn:E;
        [|done].
      by apply int_ok_literal in E.
    - intros H. apply int_literal_ok in H as [z ->]. by exists z. }
  assert (forall e, IntParser_value (Some sep) text = Raise e ->
                    is_ValueError e = true) as Hraise.
  { intros e. unfold IntParser_value.
    destruct (int_ (strip_thousands (Some sep) text)) as [z|e'] eqn:E;
      [done|].
    intros [= <-]. by apply int_raises in E. }
  split; [done|]. split; [done|]. split; [done|].
  intros i c Hi _ Hc Hr.
  destruct (IntParser_value (Some sep) text) as [v|e] eqn:E.
  - exfalso.
    assert (exists n, Ok v = Ok (VInt n)) as Hn.
    { revert E. unfold IntParser_value.
      destruct (int_ _) as [z|]; [|done]. intros [= <-]. by exists z. }
    apply Hiff in Hn.
    pose proof (int_literal_chars _ c Hn (kept_characters_elem _ _ _ _ Hi Hr)).
    congruence.
  - pose proof (Hraise e eq_refl). destruct e; try done. by eexists.
Qed.

Lemma IntParser_value_separator_witness :
  exists msg, IntParser_value (Some ",") "1,00" = Raise (ValueError msg).
Proof.
  apply (proj2 (proj2 (proj2
           (IntParser_value_separator "," "1,00" eq_refl eq_refl)))
         1 ","%char);
    reflexivity.
Defined.

(** C4, as the claim has it, fails: in [1,0000] the separator has four
    digits after it, not three, and the parse succeeds all the same; and
    a text with white space and an underscore parses too. *)
Lemma IntParser_value_four_digits :
  let l := list_ascii_of_string "1,0000" in
  l !! 1 = Some ","%char
  /\ digit_at l 2 && digit_at l 3 && digit_at l 4 && digit_at l 5 = true
  /\ l !! 6 = None
  /\ IntParser_value (Some ",") "1,0000" = Ok (VInt 10000)
  /\ IntParser_value (Some ",") " 1_0 " = Ok (VInt 10).
Proof. repeat split. Qed.

End IntParserValue.


(** ** More on the construction and the merge of funds *)

Section FundMore.
Import Funds.

(** The list of names [__init__] stores for a [name] argument. *)
Lemma init_fields s vn q name v c cur chk f w :
  init s vn q name v c cur chk = (Ok f, w) ->
  value_number f = vn /\ quantity f = q /\ value f = v
  /\ country f = c /\ currency f = cur
  /\ match name with
     | NameNone => _name f = []
     | NameStr x => _name f = [x]
     | NameList l => _name f = l
     | NameOther => False
     end.
Proof.
  unfold init. destruct chk.
  - destruct (isin_match (list_ascii_of_string s)) as [[[pre code] post]|];
      [|done].
    destruct (truthy (string_of_list_ascii pre)
              || truthy (string_of_list_ascii post));
      destruct name; cbn; intros H; by simplify_eq.
  - destruct name; cbn; intros H; by simplify_eq.
Qed.

Lemma post_here_Some l post :
  post_here l = Some post ->
  exists tail,
    l = post ++ tail
    /\ (tail = [] \/ exists c, tail = [c] /\ is_newline c = true).
Proof.
  unfold post_here. destruct (dot_star_prefix l) as [r Hr].
  assert (drop (length (dot_star l)) l = r) as ->.
  { rewrite Hr at 2. apply drop_app_length. }
  destruct r as [|c [|d r]]; intros [= <-].
  - exists []. split; [done|by left].
  - exists [c]. split; [done|]. right. exists c. split; [done|].
    apply (dot_star_stop_is_newline l).
    transitivity ((dot_star l ++ [c]) !! length (dot_star l));
      [by rewrite <- Hr|].
    rewrite lookup_app_r by lia. by rewrite Nat.sub_diag.
Qed.

(** The three groups of a match, and the line feed the pattern may leave
    at the end, make up the input. *)
Lemma isin_match_parts l pre code post :
  isin_match l = Some (pre, code, post) ->
  exists tail,
    l = pre ++ code ++ post ++ tail
    /\ (tail = [] \/ exists c, tail = [c] /\ is_newline c = true).
Proof.
  intros H. apply isin_backtrack_Some in H as (i & _ & H).
  apply isin_at_Some in H as (-> & -> & _ & Hpost).
  apply post_here_Some in Hpost as (tail & Hl & Htail).
  exists tail. split; [|done].
  rewrite <- Hl. by rewrite !take_drop.
Qed.

Lemma truthy_string_of_list l :
  truthy (string_of_list_ascii l) = false <-> l = [].
Proof. destruct l; cbn; split; done. Qed.

Lemma dot_star_no_newline l c : c ∈ dot_star l -> is_newline c = false.
Proof.
  induction l as [|d r IH]; simpl; [by intros ?%elem_of_nil|].
  destruct (is_newline d) eqn:E; [by intros ?%elem_of_nil|].
  intros [->|H]%elem_of_cons; [done|by apply IH].
Qed.

Lemma post_here_dot_star l post : post_here l = Some post -> post = dot_star l.
Proof.
  unfold post_here.
  by destruct (drop (length (dot_star l)) l) as [|? [|? ?]]; intros [= <-].
Qed.

(** The code of a match has the shape of an identity, and neither of the
    two runs around it holds a line feed. *)
Lemma isin_match_groups l pre code post :
  isin_match l = Some (pre, code, post) ->
  isin_shape code = true
  /\ (forall c, c ∈ pre ++ post -> is_newline c = false).
Proof.
  intros H. apply isin_backtrack_Some in H as (i & Hi & H).
  apply isin_at_Some in H as (-> & -> & Hs & Hpost).
  split; [done|]. intros c [Hc|Hc]%elem_of_app.
  - destruct (dot_star_prefix l) as [r Hr].
    rewrite Hr, take_app_le in Hc by done.
    apply subseteq_take in Hc. by apply dot_star_no_newline in Hc.
  - apply post_here_dot_star in Hpost as ->.
    by apply dot_star_no_newline in Hc.
Qed.

(** X1. A constructor call that checks the identity logs its warning
    exactly when characters come before or after the code in the input; a
    line feed that ends the input is not counted.  The input is the
    characters before, the code, the characters after and that line feed,
    if any; the characters before and after hold no line feed.  So no
    warning is logged exactly when the input is the code, or the code and
    one final line feed; otherwise the one warning names the input and the
    code. *)
Theorem init_warns_on_extra_characters s vn q name v c cur f w :
  init s vn q name v c cur true = (Ok f, w) ->
  (exists pre post tail,
     list_ascii_of_string s
     = pre ++ list_ascii_of_string (isin f) ++ post ++ tail
     /\ (forall ch, ch ∈ pre ++ post -> is_newline ch = false)
     /\ (tail = [] \/ exists ch, tail = [ch] /\ is_newline ch = true)
     /\ (pre = [] /\ post = [] -> w = [])
     /\ (~ (pre = [] /\ post = []) -> w = [extra_characters s (isin f)]))
  /\ (w = [] <->
      list_ascii_of_string s = list_ascii_of_string (isin f)
      \/ exists ch, is_newline ch = true
           /\ list_ascii_of_string s = list_ascii_of_string (isin f) ++ [ch])
  /\ (w <> [] -> w = [extra_characters s (isin f)]).
Proof.
  unfold init.
  destruct (isin_match (list_ascii_of_string s))
    as [[[pre code] post]|] eqn:Hm; [|done].
  destruct (isin_match_parts _ _ _ _ Hm) as (tail & Hl & Htail).
  destruct (isin_match_groups _ _ _ _ Hm) as (Hshape & Hnl).
  intros H.
  assert (isin f = string_of_list_ascii code
          /\ w = if truthy (string_of_list_ascii pre)
                    || truthy (string_of_list_ascii post)
                 then [extra_characters s (string_of_list_ascii code)]
                 else []) as [-> ->].
  { destruct (truthy (string_of_list_ascii pre)
              || truthy (string_of_list_ascii post));
      destruct name; cbn in H; by simplify_eq. }
  rewrite list_ascii_of_string_of_list_ascii.
  split; [|split].
  - exists pre, post, tail.
    split; [done|]. split; [done|]. split; [done|]. split.
    + intros [-> ->]. done.
    + intros Hne.
      destruct (truthy (string_of_list_ascii pre)) eqn:Ep; [done|].
      destruct (truthy (string_of_list_ascii post)) eqn:Eq; [done|].
      apply truthy_string_of_list in Ep, Eq. by destruct Hne.
  - split.
    + intros Hw.
      destruct (truthy (string_of_list_ascii pre)) eqn:Ep; [done|].
      destruct (truthy (string_of_list_ascii post)) eqn:Eq; [done|].
      apply truthy_string_of_list in Ep as ->.
      apply truthy_string_of_list in Eq as ->.
      simpl in Hl. destruct Htail as [->|(ch & -> & Hch)].
      * left. by rewrite Hl, app_nil_r.
      * right. by exists ch.
    + intros Hs. destruct pre as [|x pre].
      * destruct post as [|y post]; [done|]. exfalso.
        simpl in Hl. destruct Hs as [Hs|(ch & Hch & Hs)]; rewrite Hs in Hl.
        -- apply (f_equal length) in Hl. rewrite length_app in Hl.
           simpl in Hl. lia.
        -- apply app_inv_head in Hl. injection Hl as -> _.
           rewrite Hnl in Hch; [done|]. simpl. by left.
      * exfalso. destruct Hs as [Hs|(ch & Hch & Hs)]; rewrite Hs in Hl.
        -- apply (f_equal length) in Hl. simpl in Hl.
           rewrite !length_app in Hl. lia.
        -- assert (pre = [] /\ post = [] /\ tail = []) as (-> & -> & ->).
           { apply (f_equal length) in Hl. simpl in Hl.
             rewrite !length_app in Hl. simpl in Hl.
             destruct pre, post, tail; simpl in Hl; try lia. done. }
           simpl in Hl. rewrite app_nil_r in Hl.
           assert (ch ∈ x :: code) as [->|Hin]%elem_of_cons.
           { rewrite <- Hl. apply elem_of_app. right. by left. }
           ++ rewrite Hnl in Hch; [done|]. by left.
           ++ by rewrite (isin_shape_no_newline _ _ Hshape Hin) in Hch.
  - intros Hw.
    by destruct (truthy (string_of_list_ascii pre)
                 || truthy (string_of_list_ascii post)).
Qed.

Lemma init_warns_on_extra_characters_witness :
  let s := String.append "CH0012345678" (String "010"%char EmptyString) in
  (exists pre post tail,
     list_ascii_of_string s
     = pre ++ list_ascii_of_string "CH0012345678" ++ post ++ tail
     /\ (forall ch, ch ∈ pre ++ post -> is_newline ch = false)
     /\ (tail = [] \/ exists ch, tail = [ch] /\ is_newline ch = true)
     /\ (pre = [] /\ post = [] -> @nil string = [])
     /\ (~ (pre = [] /\ post = []) ->
         [] = [extra_characters s "CH0012345678"]))
  /\ (@nil string = [] <->
      list_ascii_of_string s = list_ascii_of_string "CH0012345678"
      \/ exists ch, is_newline ch = true
           /\ list_ascii_of_string s
              = list_ascii_of_string "CH0012345678" ++ [ch])
  /\ (@nil string <> [] -> [] = [extra_characters s "CH0012345678"]).
Proof.
  exact (init_warns_on_extra_characters
           (String.append "CH0012345678" (String "010"%char EmptyString))
           None 0%Z NameNone None None None _ _ eq_refl).
Defined.

(** X2. A fund that the constructor has built with the identity check is
    rebuilt as it is, without a warning, from its own fields. *)
Theorem init_of_constructed s vn q name v c cur f w :
  init s vn q name v c cur true = (Ok f, w) ->
  init (isin f) (value_number f) (quantity f) (NameList (_name f))
       (value f) (country f) (currency f) true
  = (Ok f, []).
Proof.
  intros H. pose proof (init_fields _ _ _ _ _ _ _ _ _ _ H) as Hf.
  apply init_isin in H as (pre & code & post & Hm & Hi).
  rewrite init_canonical.
  - by destruct f.
  - rewrite Hi, list_ascii_of_string_of_list_ascii.
    by apply isin_match_Some in Hm.
Qed.

Lemma init_of_constructed_witness :
  init "CH0012345678" None 0%Z (NameList []) None None None true
  = (Ok (mkFund "CH0012345678" None 0 [] None None None), []).
Proof.
  exact (init_of_constructed
           "Prefix CH0012345678 Suffix" None 0%Z NameNone None None None
           _ _ eq_refl).
Defined.

(** What a merge that succeeds has gone through. *)
Lemma add_Ok (a b r : Fund) w :
  add a b = (Ok r, w) ->
  isin a = isin b
  /\ differ neq_int (value_number a) (value_number b) = false
  /\ value_check a b = Ok false
  /\ differ neq_str (country a) (country b) = false
  /\ differ neq_str (currency a) (currency b) = false
  /\ init (isin a)
          (or_ (value_number a) (value_number b))
          (quantity a + quantity b)%Z
          (NameList (_name a ++ _name b))
          (or_ (value a) (value b))
          (or_ (country a) (country b))
          (or_ (currency a) (currency b)) true
     = (Ok r, w).
Proof.
  unfold add, eq.
  destruct (String.eqb_spec (isin a) (isin b)) as [Hi|]; [|done]. cbn.
  destruct (differ neq_int (value_number a) (value_number b)); [done|].
  destruct (value_check a b) as [[|]|e]; cbn; [done| |done].
  destruct (differ neq_str (country a) (country b)); [done|].
  destruct (differ neq_str (currency a) (currency b)); [done|].
  destruct (init _ _ _ _ _ _ _ _) as [[r'|e] w'] eqn:E; cbn; [|done].
  by intros [= <- <-].
Qed.

(** X3. Whenever a merge succeeds, whatever the operands, the merged fund
    has a code of the canonical shape, the sum of the two quantities and
    the names of the first fund followed by those of the second. *)
Theorem add_sums_and_concatenates (a b r : Fund) w :
  add a b = (Ok r, w) ->
  isin_shape (list_ascii_of_string (isin r)) = true
  /\ quantity r = (quantity a + quantity b)%Z
  /\ _name r = _name a ++ _name b.
Proof.
  intros H. apply add_Ok in H as (_ & _ & _ & _ & _ & H).
  pose proof (init_fields _ _ _ _ _ _ _ _ _ _ H) as (_ & Hq & _ & _ & _ & Hn).
  apply init_isin in H as (pre & code & post & Hm & Hi).
  split; [|done].
  rewrite Hi, list_ascii_of_string_of_list_ascii.
  by apply isin_match_Some in Hm.
Qed.

Lemma add_sums_and_concatenates_witness :
  isin_shape (list_ascii_of_string "IT1234567890") = true
  /\ 11%Z = (10 + 1)%Z
  /\ ["Test Fund"; "Test Fund 2"] = ["Test Fund"] ++ ["Test Fund 2"].
Proof.
  exact (add_sums_and_concatenates
           (mkFund "IT1234567890" (Some 100%Z) 10 ["Test Fund"] None None None)
           (mkFund "IT1234567890" None 1 ["Test Fund 2"] None None None)
           _ _ eq_refl).
Defined.

Lemma or_None {A} `{Truthy A} (y : option A) : or_ None y = y.
Proof. done. Qed.

Lemma or_held {A} `{Truthy A} (x y : option A) :
  Notions.held x -> or_ x y = x.
Proof. intros (a & -> & Ha). unfold or_. cbn. by rewrite Ha. Qed.

(** X4. In a merge that succeeds, each of the value number, the monetary
    value, the country and the currency is the one of the first fund when
    the first fund holds it and it is not zero or empty, and the one of
    the second fund when the first fund holds none. *)
Theorem add_prefers_first (a b r : Fund) w :
  add a b = (Ok r, w) ->
  (Notions.held (value_number a) -> value_number r = value_number a)
  /\ (value_number a = None -> value_number r = value_number b)
  /\ (Notions.held (value a) -> value r = value a)
  /\ (value a = None -> value r = value b)
  /\ (Notions.held (country a) -> country r = country a)
  /\ (country a = None -> country r = country b)
  /\ (Notions.held (currency a) -> currency r = currency a)
  /\ (currency a = None -> currency r = currency b).
Proof.
  intros H. apply add_Ok in H as (_ & _ & _ & _ & _ & H).
  apply init_fields in H as (-> & _ & -> & -> & -> & _).
  repeat split; intros Hx;
    first [by apply or_held | by rewrite Hx].
Qed.

Lemma add_prefers_first_witness :
  let a := mkFund "IT1234567890" (Some 100%Z) 10 ["Test Fund"]
             None None None in
  let b := mkFund "IT1234567890" None 1 ["Test Fund 2"] None
             (Some "Italy") None in
  exists r w,
    add a b = (Ok r, w)
    /\ value_number r = Some 100%Z /\ country r = Some "Italy".
Proof.
  intros a b.
  destruct (add a b) as [[r|e] w] eqn:E; [|discriminate E].
  exists r, w. split; [done|].
  destruct (add_prefers_first a b r w E) as (Hvn & _ & _ & _ & _ & Hco & _).
  split.
  - apply Hvn. exists 100%Z. by split.
  - by apply Hco.
Defined.


Lemma or_assoc {A} `{Truthy A} (x y z : option A) :
  or_ (or_ x y) z = or_ x (or_ y z).
Proof. unfold or_. destruct (truthy x) eqn:E; [by rewrite E|done]. Qed.

Lemma or_None_r {A} `{Truthy A} (x : option A) :
  one_sided_truthy x None -> or_ x None = x.
Proof. destruct x as [a|]; [|done]. cbn. unfold or_. cbn. by intros ->. Qed.

(** X5. The merge is associative where it is defined: when [(a + b) + c]
    and [a + (b + c)] both succeed, they are the same fund. *)
Theorem add_associative (a b c ab bc r1 r2 : Fund) w1 w2 w3 w4 :
  add a b = (Ok ab, w1) -> add ab c = (Ok r1, w2) ->
  add b c = (Ok bc, w3) -> add a bc = (Ok r2, w4) ->
  r1 = r2.
Proof.
  intros H1 H2 H3 H4.
  apply add_Ok in H1 as (_ & _ & _ & _ & _ & H1).
  apply add_Ok in H2 as (_ & _ & _ & _ & _ & H2).
  apply add_Ok in H3 as (_ & _ & _ & _ & _ & H3).
  apply add_Ok in H4 as (_ & _ & _ & _ & _ & H4).
  pose proof (init_fields _ _ _ _ _ _ _ _ _ _ H1)
    as (Hvn1 & Hq1 & Hv1 & Hco1 & Hcu1 & Hn1).
  pose proof (init_fields _ _ _ _ _ _ _ _ _ _ H2)
    as (Hvn2 & Hq2 & Hv2 & Hco2 & Hcu2 & Hn2).
  pose proof (init_fields _ _ _ _ _ _ _ _ _ _ H3)
    as (Hvn3 & Hq3 & Hv3 & Hco3 & Hcu3 & Hn3).
  pose proof (init_fields _ _ _ _ _ _ _ _ _ _ H4)
    as (Hvn4 & Hq4 & Hv4 & Hco4 & Hcu4 & Hn4).
  apply init_isin in H1 as (pre1 & code1 & post1 & Hm1 & Hi1).
  apply init_isin in H2 as (pre2 & code2 & post2 & Hm2 & Hi2).
  apply init_isin in H4 as (pre4 & code4 & post4 & Hm4 & Hi4).
  assert (isin r1 = isin r2) as Hi.
  { rewrite Hi2, Hi4. rewrite Hm1 in Hm4. injection Hm4 as _ <- _.
    rewrite Hi1, list_ascii_of_string_of_list_ascii in Hm2.
    rewrite (isin_match_canonical code1) in Hm2
      by by apply isin_match_Some in Hm1.
    by injection Hm2 as _ <- _. }
  destruct r1, r2. cbn in *. subst.
  rewrite Hi, Hvn1, Hq1, Hv1, Hco1, Hcu1, Hn1, Hvn3, Hq3, Hv3, Hco3, Hcu3, Hn3.
  by rewrite !or_assoc, Z.add_assoc, app_assoc.
Qed.

Lemma add_associative_witness :
  let a := mkFund "IT1234567890" (Some 100%Z) 10 ["A"] None None None in
  let b := mkFund "IT1234567890" None 1 ["B"] None (Some "Italy") None in
  let c := mkFund "IT1234567890" None 2 ["C"] None None (Some "EUR") in
  exists ab bc r,
    add a b = (Ok ab, []) /\ add b c = (Ok bc, [])
    /\ add ab c = (Ok r, []) /\ add a bc = (Ok r, []).
Proof.
  intros a b c.
  destruct (add a b) as [[ab|] w1] eqn:E1; [|discriminate E1].
  destruct (add b c) as [[bc|] w3] eqn:E3; [|discriminate E3].
  destruct (add ab c) as [[r1|] w2] eqn:E2;
    [|injection E1 as <- <-; discriminate E2].
  destruct (add a bc) as [[r2|] w4] eqn:E4;
    [|injection E3 as <- <-; discriminate E4].
  pose proof (add_associative a b c ab bc r1 r2 _ _ _ _ E1 E2 E3 E4) as ->.
  exists ab, bc, r2.
  injection E1 as <- <-. injection E3 as <- <-.
  injection E2 as <- <-. injection E4 as <-.
  by repeat split.
Defined.

(** X6. A fund that holds its code only, as the lookup builds it from a
    code, is neutral for the merge with a fund of the same code: on the
    left it gives the other fund as it is, and on the right as well when
    every field the other fund holds is not zero or empty. *)
Theorem add_bare_neutral s (base f : Fund) w :
  init s None 0%Z NameNone None None None true = (Ok base, w) ->
  isin f = isin base ->
  add base f = (Ok f, [])
  /\ (one_sided_truthy (value_number f) None ->
      one_sided_truthy (value f) None ->
      one_sided_truthy (country f) None ->
      one_sided_truthy (currency f) None ->
      add f base = (Ok f, [])).
Proof.
  intros H Hi.
  pose proof (init_fields _ _ _ _ _ _ _ _ _ _ H)
    as (Hvn & Hq & Hv & Hco & Hcu & Hn).
  apply init_isin in H as (pre & code & post & Hm & Hc).
  assert (isin_shape (list_ascii_of_string (isin base)) = true) as Hs.
  { rewrite Hc, list_ascii_of_string_of_list_ascii.
    by apply isin_match_Some in Hm. }
  split.
  - rewrite add_passes; try done.
    + rewrite Hvn, Hq, Hv, Hco, Hcu, Hn, <- Hi. by destruct f.
    + by rewrite Hvn.
    + unfold value_check. by rewrite Hv.
    + by rewrite Hco.
    + by rewrite Hcu.
  - intros Tvn Tv Tco Tcu. rewrite add_passes; try done.
    + rewrite Hvn, Hq, Hv, Hco, Hcu, Hn.
      rewrite !or_None_r, Z.add_0_r, app_nil_r by done. by destruct f.
    + by rewrite Hi.
    + rewrite Hvn. by destruct (value_number f).
    + unfold value_check. rewrite Hv. by destruct (value f).
    + rewrite Hco. by destruct (country f).
    + rewrite Hcu. by destruct (currency f).
Qed.

Lemma add_bare_neutral_witness :
  let f := mkFund "IT1234567890" (Some 100%Z) 10 ["Test Fund"]
             (Some 1000%float) None (Some "EUR") in
  let base := mkFund "IT1234567890" None 0 [] None None None in
  add base f = (Ok f, []) /\ add f base = (Ok f, []).
Proof.
  intros f base.
  destruct (add_bare_neutral "IT1234567890" base f [] eq_refl eq_refl)
    as [Hl Hr].
  split; [done|]. by apply Hr.
Defined.

(** X7. The checks of the merge in their order.  Funds with different
    codes are refused for their codes, whatever else they hold.  With the
    same code, two different value numbers are refused as such.  When the
    check of the monetary value passes, two different countries are
    refused as such, and with no such countries two different currencies
    are. *)
Theorem add_reports_conflicts (a b : Fund) :
  (isin a <> isin b ->
   add a b = (Raise (ValueError "Cannot add funds with different ISINs"), []))
  /\ (isin a = isin b ->
      differ neq_int (value_number a) (value_number b) = true ->
      add a b
      = (Raise (ValueError "Cannot add funds with different value numbers"),
         []))
  /\ (isin a = isin b ->
      differ neq_int (value_number a) (value_number b) = false ->
      value_check a b = Ok false ->
      differ neq_str (country a) (country b) = true ->
      add a b
      = (Raise (ValueError "Cannot add funds with different countries"), []))
  /\ (isin a = isin b ->
      differ neq_int (value_number a) (value_number b) = false ->
      value_check a b = Ok false ->
      differ neq_str (country a) (country b) = false ->
      differ neq_str (currency a) (currency b) = true ->
      add a b
      = (Raise (ValueError "Cannot add funds with different currencies"), [])).
Proof.
  split; [apply add_different_isin|].
  split; [|split].
  - intros Hi Hvn. unfold add. by rewrite (eq_same _ _ Hi), Hvn.
  - intros Hi Hvn Hv Hco. unfold add.
    rewrite (eq_same _ _ Hi), Hvn, Hv. cbn. by rewrite Hco.
  - intros Hi Hvn Hv Hco Hcu. unfold add.
    rewrite (eq_same _ _ Hi), Hvn, Hv. cbn. by rewrite Hco, Hcu.
Qed.

Lemma add_reports_conflicts_witness :
  add (mkFund "CH1234567890" None 0 [] None None (Some "CHF"))
      (mkFund "CH1234567890" None 0 [] None None (Some "EUR"))
  = (Raise (ValueError "Cannot add funds with different currencies"), []).
Proof.
  apply (proj2 (proj2 (proj2 (add_reports_conflicts _ _)))); reflexivity.
Defined.

(** X8. Funds whose common code has no substring of the canonical shape,
    as the constructor accepts them without the identity check, are never
    merged: the merge builds its result with the check. *)
Theorem add_refuses_unchecked_code (a b r : Fund) w :
  ~ contains_isin (list_ascii_of_string (isin a)) ->
  add a b <> (Ok r, w).
Proof.
  intros Hno H. apply add_Ok in H as (_ & _ & _ & _ & _ & H).
  apply init_isin in H as (pre & code & post & Hm & _).
  by rewrite (isin_match_None _ Hno) in Hm.
Qed.

Lemma add_refuses_unchecked_code_witness :
  let a := mkFund "short123" None 1 [] None None None in
  add a a <> (Ok a, []).
Proof.
  intros a. apply add_refuses_unchecked_code.
  intros (pre & code & post & Hl & Hs).
  apply isin_shape_length in Hs.
  apply (f_equal length) in Hl. rewrite !length_app in Hl.
  cbn in Hl. lia.
Defined.

Lemma string_app_assoc (s1 s2 s3 : string) :
  (s1 +:+ s2) +:+ s3 = s1 +:+ (s2 +:+ s3).
Proof.
  induction s1 as [|c s1 IH]; [done|].
  change (String c ((s1 +:+ s2) +:+ s3) = String c (s1 +:+ (s2 +:+ s3))).
  by rewrite IH.
Qed.

Lemma join_app sep (l1 l2 : list string) :
  l1 <> [] -> l2 <> [] ->
  join sep (l1 ++ l2) = join sep l1 +:+ sep +:+ join sep l2.
Proof.
  intros H1 H2. induction l1 as [|x [|y l1] IH]; [done| |].
  - destruct l2; [done|]. reflexivity.
  - change (join sep ((x :: y :: l1) ++ l2))
      with (x +:+ sep +:+ join sep ((y :: l1) ++ l2)).
    rewrite IH by done.
    change (join sep (x :: y :: l1)) with (x +:+ sep +:+ join sep (y :: l1)).
    by rewrite !string_app_assoc.
Qed.

(** X9. The name of a merged fund is the name of the first fund, the
    delimiter and the name of the second, when both funds have names; a
    fund without names leaves the name of the other as it is. *)
Theorem add_joins_names (a b r : Fund) w :
  add a b = (Ok r, w) ->
  (_name a <> [] -> _name b <> [] ->
   name r = name a +:+ " | " +:+ name b)
  /\ (_name a = [] -> name r = name b)
  /\ (_name b = [] -> name r = name a).
Proof.
  intros H. apply add_Ok in H as (_ & _ & _ & _ & _ & H).
  apply init_fields in H as (_ & _ & _ & _ & _ & Hn).
  unfold name. rewrite Hn. split; [|split].
  - by apply join_app.
  - by intros ->.
  - intros ->. by rewrite app_nil_r.
Qed.

Lemma add_joins_names_witness :
  let a := mkFund "IT1234567890" (Some 100%Z) 10 ["Test Fund"]
             None None None in
  let b := mkFund "IT1234567890" None 1 ["Test Fund 2"] None None None in
  exists r w, add a b = (Ok r, w) /\ name r = "Test Fund | Test Fund 2".
Proof.
  intros a b.
  destruct (add a b) as [[r|e] w] eqn:E; [|discriminate E].
  exists r, w. split; [done|].
  by apply (proj1 (add_joins_names a b r w E)).
Defined.

End FundMore.

(** ** More on dictionaries *)

Section DictMore.
Context {K : Type} `{EqDecision K}.

Lemma index_Ok (x : K) (l : list K) i :
  index x l = Ok i ->
  l !! i = Some x /\ forall j, j < i -> l !! j <> Some x.
Proof.
  revert i. induction l as [|y r IH]; intros i; simpl; [done|].
  destruct (decide (y = x)) as [->|Hne].
  - intros [= <-]. split; [done|]. intros j Hj. lia.
  - destruct (index x r) as [k|e] eqn:E; [|done]. intros [= <-].
    destruct (IH k eq_refl) as [Hk Hfirst]. split; [done|].
    intros [|j] Hj; simpl; [congruence|]. apply Hfirst. lia.
Qed.

Lemma index_Raise (x : K) (l : list K) e :
  index x l = Raise e -> is_ValueError e = true /\ x ∉ l.
Proof.
  induction l as [|y r IH]; simpl.
  - intros [= <-]. split; [done|]. apply not_elem_of_nil.
  - destruct (decide (y = x)) as [->|Hne]; [done|].
    destruct (index x r) as [k|e'] eqn:E; [done|]. intros [= <-].
    destruct (IH eq_refl) as [He Hx]. split; [done|].
    intros [?|?]%elem_of_cons; done.
Qed.

Lemma dict_set_fresh {V} (k : K) (v : V) (d : list (K * V)) :
  k ∉ d.*1 -> dict_set k v d = d ++ [(k, v)].
Proof.
  induction d as [|[k' v'] r IH]; intros Hk; simpl; [done|].
  rewrite fmap_cons, not_elem_of_cons in Hk. destruct Hk as [Hne Hk].
  cbn in Hne. destruct (decide (k = k')) as [->|_]; [done|]. by rewrite IH.
Qed.

Lemma dict_set_keys {V} (k : K) (v : V) (d : list (K * V)) :
  (dict_set k v d).*1 = if decide (k ∈ d.*1) then d.*1 else d.*1 ++ [k].
Proof.
  induction d as [|[k' v'] r IH].
  - case_decide as H; [by apply elem_of_nil in H|done].
  - rewrite fmap_cons. cbn [dict_set fst].
    destruct (decide (k = k')) as [->|Hne].
    + rewrite decide_True by left. done.
    + rewrite fmap_cons, IH. cbn [fst].
      destruct (decide (k ∈ r.*1)) as [Hin|Hin].
      * rewrite decide_True by (by right). done.
      * rewrite decide_False by (intros [?|?]%elem_of_cons; done). done.
Qed.

Lemma dict_set_NoDup {V} (k : K) (v : V) (d : list (K * V)) :
  NoDup d.*1 -> NoDup (dict_set k v d).*1.
Proof.
  intros Hd. rewrite dict_set_keys. destruct (decide (k ∈ d.*1)); [done|].
  apply NoDup_app. split; [done|]. split.
  - intros x Hx ->%list_elem_of_singleton. done.
  - apply NoDup_singleton.
Qed.

(** The keys of a dictionary are pairwise different. *)
Lemma dict_comp_NoDup {A B} (f : A -> result B) (items : list (K * A)) :
  forall acc d,
    NoDup acc.*1 -> dict_comp f items acc = Ok d -> NoDup d.*1.
Proof.
  induction items as [|[k a] r IH]; intros acc d Hacc; simpl.
  - by intros [= <-].
  - destruct (f a) as [b|e]; [|done]. apply IH. by apply dict_set_NoDup.
Qed.

(** On items with different keys the comprehension gives the items in
    their order, each with its value. *)
Lemma dict_comp_items {A B} (f : A -> result B) (items : list (K * A)) :
  forall acc d,
    NoDup (acc.*1 ++ items.*1) -> dict_comp f items acc = Ok d ->
    exists d',
      d = acc ++ d'
      /\ Forall2 (fun item cell => cell.1 = item.1 /\ f item.2 = Ok cell.2)
                 items d'.
Proof.
  induction items as [|[k a] r IH]; intros acc d Hnd; simpl.
  - intros [= <-]. exists []. split; [by rewrite app_nil_r|constructor].
  - destruct (f a) as [b|e] eqn:E; [|done]. intros H.
    rewrite fmap_cons in Hnd. cbn in Hnd.
    assert (k ∉ acc.*1) as Hk.
    { apply NoDup_app in Hnd as (_ & Hd & _). intros Hin.
      apply (Hd k Hin). left. }
    rewrite (dict_set_fresh _ _ _ Hk) in H.
    apply IH in H as (d' & -> & Hd').
    + exists ((k, b) :: d'). split; [by rewrite <- app_assoc|].
      by constructor.
    + rewrite fmap_app, <- app_assoc. done.
Qed.

Lemma dict_comp_Ok {A B} (f : A -> result B) (items : list (K * A)) :
  forall acc d,
    dict_comp f items acc = Ok d ->
    forall k a, (k, a) ∈ items -> exists b, f a = Ok b.
Proof.
  induction items as [|[k a] r IH]; intros acc d; simpl.
  - intros _ k a Hin. by apply elem_of_nil in Hin.
  - destruct (f a) as [b|e] eqn:E; [|done]. intros H k' a' Hin.
    apply elem_of_cons in Hin as [[= -> ->]|Hin]; [by eexists|].
    by apply (IH _ _ H k').
Qed.

(** What the comprehension raises, one of its values raises. *)
Lemma dict_comp_Raise {A B} (f : A -> result B) (items : list (K * A)) :
  forall acc e,
    dict_comp f items acc = Raise e ->
    exists k a, (k, a) ∈ items /\ f a = Raise e.
Proof.
  induction items as [|[k a] r IH]; intros acc e; simpl; [done|].
  destruct (f a) as [b|e'] eqn:E.
  - intros H. apply IH in H as (k' & a' & Hin & Hf).
    exists k', a'. split; [by right|done].
  - intros [= <-]. exists k, a. split; [left|done].
Qed.

(** The comprehension raises what its first value that raises does. *)
Lemma dict_comp_first {A B} (f : A -> result B)
    (items1 items2 : list (K * A)) k a e :
  (forall k' a', (k', a') ∈ items1 -> exists b, f a' = Ok b) ->
  f a = Raise e ->
  forall acc, dict_comp f (items1 ++ (k, a) :: items2) acc = Raise e.
Proof.
  intros Hok Hf. induction items1 as [|[k1 a1] r IH]; intros acc; simpl.
  - by rewrite Hf.
  - destruct (Hok k1 a1) as [b ->]; [left|].
    apply IH. intros k' a' Hin. apply (Hok k' a'). by right.
Qed.

Lemma dict_get_set {V} (key k : K) (v : V) (d : list (K * V)) :
  dict_get key (dict_set k v d)
  = if decide (key = k) then Some v else dict_get key d.
Proof.
  induction d as [|[k' v'] r IH]; cbn [dict_set dict_get].
  - by destruct (decide (key = k)).
  - destruct (decide (k = k')) as [->|Hne]; cbn [dict_get].
    + by destruct (decide (key = k')).
    + rewrite IH. destruct (decide (key = k')) as [->|]; [|done].
      by rewrite decide_False.
Qed.

(** Every key of the items is a key of the dictionary. *)
Lemma dict_comp_keys {A B} (f : A -> result B) (items : list (K * A)) :
  forall acc d,
    dict_comp f items acc = Ok d ->
    forall k, dict_in k acc = true \/ k ∈ items.*1 -> dict_in k d = true.
Proof.
  induction items as [|[k a] r IH]; intros acc d; simpl.
  - intros [= <-] k' [H|H]; [done|by apply elem_of_nil in H].
  - destruct (f a) as [b|e]; [|done]. intros H k' Hk'.
    apply (IH _ _ H). unfold dict_in. rewrite dict_get_set.
    destruct (decide (k' = k)) as [->|Hne]; [by left|].
    destruct Hk' as [Hk'|Hk']; [by left|].
    apply elem_of_cons in Hk' as [?|?]; [done|by right].
Qed.

End DictMore.

(** ** More on selection and parser assignment *)

Section TableSelectMore.
Import Tables.

Lemma select_Ok spec t sel :
  dict_comp (fun column => index column (_header t)) (columns spec) [] = Ok sel ->
  forall label column, (label, column) ∈ columns spec -> column ∈ _header t.
Proof.
  intros H label column Hin.
  destruct (dict_comp_Ok _ _ _ _ H label column Hin) as [i Hi].
  apply index_Ok in Hi as [Hi _]. by apply list_elem_of_lookup_2 in Hi.
Qed.

Lemma select_Raise spec t e :
  dict_comp (fun column => index column (_header t)) (columns spec) [] = Raise e ->
  is_ValueError e = true
  /\ exists label column, (label, column) ∈ columns spec /\ column ∉ _header t.
Proof.
  intros H. apply dict_comp_Raise in H as (label & column & Hin & Hi).
  apply index_Raise in Hi as [He Hno]. split; [done|]. by exists label, column.
Qed.

(** X10. [select] never raises, and it returns [True] exactly when the
    header has every column the specification maps and every column it
    lists to drop. *)
Theorem select_returns spec t :
  exists b, (select spec t).2 = Ok b /\ (b = true <-> matches spec (_header t)).
Proof.
  unfold select.
  destruct (dict_comp _ (columns spec) []) as [sel|e] eqn:E.
  - eexists. split; [done|]. split.
    + intros Hdrop. split; [by apply (select_Ok spec t sel)|].
      intros names column Hnames Hin. rewrite Hnames in Hdrop.
      rewrite forallb_forall in Hdrop.
      apply list_elem_of_In, Hdrop in Hin. by apply bool_decide_eq_true in Hin.
    + intros [_ Hdrop]. destruct (drop spec) as [names|] eqn:En; [|done].
      apply forallb_forall. intros column Hin. apply bool_decide_eq_true.
      apply (Hdrop names); [done|]. by apply list_elem_of_In.
  - apply select_Raise in E as (He & label & column & Hin & Hno).
    destruct e; try done. exists false. split; [done|]. split; [done|].
    intros [Hcol _]. destruct Hno. by apply (Hcol label).
Qed.

(** X11. A [select] that misses a column of the specification in the
    header returns [False] and leaves the table as it was, selection and
    parsers included. *)
Theorem select_missing_column spec t label column :
  (label, column) ∈ columns spec -> column ∉ _header t ->
  select spec t = (t, Ok false).
Proof.
  intros Hin Hno. unfold select.
  destruct (dict_comp _ (columns spec) []) as [sel|e] eqn:E.
  - destruct Hno. by apply (select_Ok spec t sel E label).
  - apply select_Raise in E as (He & _). by destruct e.
Qed.

Lemma select_missing_column_witness :
  let t := mkTable ["Name"; "Numeric Id"; "Amount"] [["Bar"; "2"; "5"]]
             [("id", 1)] (default_parsers [("id", 1)]) 0 in
  select (mkTableSpec [("name", "Full Name"); ("id", "Numeric Id")] None) t
  = (t, Ok false).
Proof.
  intros t. apply (select_missing_column _ t "name" "Full Name").
  - left.
  - by apply (bool_decide_unpack _).
Defined.

(** X12. A [select] that finds every mapped column and misses a column
    listed to drop returns [False] after it has replaced the selection
    and reset the parsers. *)
Theorem select_missing_drop spec t names name :
  (forall label column, (label, column) ∈ columns spec -> column ∈ _header t) ->
  drop spec = Some names -> name ∈ names -> name ∉ _header t ->
  exists sel,
    select spec t = (set_selection t sel (default_parsers sel), Ok false)
    /\ forall label column,
         (label, column) ∈ columns spec -> dict_in label sel = true.
Proof.
  intros Hcol Hdrop Hin Hno. unfold select.
  destruct (dict_comp _ (columns spec) []) as [sel|e] eqn:E.
  - exists sel. split.
    + rewrite Hdrop. do 2 f_equal. apply not_true_is_false. intros Hall.
      rewrite forallb_forall in Hall.
      apply list_elem_of_In, Hall in Hin. by apply bool_decide_eq_true in Hin.
    + intros label column Hl. apply (dict_comp_keys _ _ _ _ E). right.
      apply list_elem_of_fmap. by exists (label, column).
  - apply select_Raise in E as (_ & label & column & Hl & Hc).
    destruct Hc. by apply (Hcol label).
Qed.

Lemma select_missing_drop_witness :
  let t := mkTable ["Name"; "Numeric Id"] [["Bar"; "2"]] [] ∅ 0 in
  exists sel,
    select (mkTableSpec [("id", "Numeric Id")] (Some ["Amount"])) t
    = (set_selection t sel (default_parsers sel), Ok false)
    /\ forall label column,
         (label, column) ∈ [("id", "Numeric Id")] -> dict_in label sel = true.
Proof.
  intros t.
  apply (select_missing_drop
           (mkTableSpec [("id", "Numeric Id")] (Some ["Amount"])) t
           ["Amount"] "Amount").
  - intros label column Hin. cbn in Hin.
    apply list_elem_of_singleton in Hin as [= -> ->].
    by apply (bool_decide_unpack _).
  - reflexivity.
  - left.
  - by apply (bool_decide_unpack _).
Defined.

(** X13. After a [select] that succeeds, with a specification whose
    labels are all different, the labels of the table are the labels of
    the specification in their order, and each label selects the first
    column of the header that has the name the specification gives. *)
Theorem select_resolves_columns spec t t1 :
  NoDup (columns spec).*1 ->
  select spec t = (t1, Ok true) ->
  header t1 = (columns spec).*1
  /\ Forall2 (fun item cell =>
                cell.1 = item.1
                /\ _header t !! cell.2 = Some item.2
                /\ forall j, j < cell.2 -> _header t !! j <> Some item.2)
             (columns spec) (selected t1).
Proof.
  intros Hnd. unfold select.
  destruct (dict_comp _ (columns spec) []) as [sel|e] eqn:E;
    [|by destruct e].
  intros [= <- _]. cbn.
  apply dict_comp_items in E as (d & -> & Hd); [|done]. cbn.
  assert (Forall2 (fun item cell =>
                     cell.1 = item.1
                     /\ _header t !! cell.2 = Some item.2
                     /\ forall j, j < cell.2 -> _header t !! j <> Some item.2)
                  (columns spec) d) as Hd'.
  { eapply Forall2_impl; [exact Hd|]. intros item cell [Hk Hi].
    split; [done|]. by apply index_Ok. }
  split; [|done]. unfold header. cbn.
  clear -Hd'. induction Hd' as [|item cell r d (Hk & _) _ IH]; [done|].
  rewrite !fmap_cons. by f_equal.
Qed.

Lemma select_resolves_columns_witness :
  let t := mkTable ["Amount"; "Name"; "Amount"] [["1"; "Bar"; "2"]] [] ∅ 0 in
  let spec := mkTableSpec [("A", "Amount"); ("name", "Name")] None in
  header (select spec t).1 = ["A"; "name"]
  /\ selected (select spec t).1 = [("A", 0); ("name", 1)].
Proof.
  intros t spec.
  destruct (select_resolves_columns spec t (select spec t).1) as [Hh _].
  - cbn. apply (bool_decide_unpack _). by vm_compute.
  - reflexivity.
  - split; [exact Hh|reflexivity].
Defined.

End TableSelectMore.

Section TableParseWith.
Import Tables.

Lemma last_cons_nonempty {A} (x : A) (l : list A) :
  l <> [] -> last (x :: l) = last l.
Proof. by destruct l. Qed.

Lemma assigned_cons sel label p items index :
  Notions.assigned sel ((label, p) :: items) index
  = match Notions.assigned sel items index with
    | Some q => Some q
    | None => if decide (dict_get label sel = Some index) then Some p else None
    end.
Proof.
  unfold Notions.assigned. cbn.
  destruct (decide (dict_get label sel = Some index)); cbn; [|by destruct (last _)].
  destruct (omap _ items) as [|q r] eqn:E; [done|].
  rewrite last_cons_nonempty by done.
  destruct (last (q :: r)) eqn:El; [done|].
  by apply last_None in El.
Qed.

(** The loop of [parse_with] on labels that are all selected. *)
Lemma assign_selected items : forall t,
  (forall item, item ∈ items -> dict_in item.1 (selected t) = true) ->
  exists ps,
    assign items t = (set_parsers t ps, Ok tt)
    /\ forall index,
         ps !! index
         = match Notions.assigned (selected t) items index with
           | Some p => Some p
           | None => parsers t !! index
           end.
Proof.
  induction items as [|[label p] r IH]; intros t Hsel.
  - exists (parsers t). split; [by destruct t|done].
  - cbn [assign].
    pose proof (Hsel (label, p) ltac:(left)) as Hl. unfold dict_in in Hl.
    cbn in Hl. destruct (dict_get label (selected t)) as [column|] eqn:E;
      [|done].
    destruct (IH (set_parsers t (<[column:=p]> (parsers t))))
      as (ps & Hps & Hlook).
    { intros item Hin. apply Hsel. by right. }
    exists ps. split; [by rewrite Hps|].
    intros index. rewrite Hlook, assigned_cons. cbn. rewrite E.
    destruct (Notions.assigned (selected t) r index); [done|].
    destruct (decide (Some column = Some index)) as [[= ->]|Hne].
    + by rewrite lookup_insert_eq.
    + rewrite lookup_insert_ne; [done|congruence].
Qed.

Lemma assigned_filter sel (ps : list (string * Parser)) index :
  Notions.assigned sel (filter (fun item => dict_in item.1 sel = true) ps) index
  = Notions.assigned sel ps index.
Proof.
  unfold Notions.assigned. f_equal.
  induction ps as [|[label p] r IH]; [done|].
  rewrite filter_cons. cbn.
  destruct (decide (dict_in label sel = true)) as [Hin|Hin]; cbn.
  - by rewrite IH.
  - rewrite IH. unfold dict_in in Hin.
    destruct (dict_get label sel); [done|].
    by rewrite decide_False.
Qed.

Lemma existsb_negb_forallb {A} (f : A -> bool) (l : list A) :
  existsb (fun x => negb (f x)) l = negb (forallb f l).
Proof.
  induction l as [|x r IH]; [done|]. simpl. rewrite IH.
  by destruct (f x).
Qed.

(** What [parse_with] does, in both modes. *)
Lemma parse_with_spec ps strict t :
  let ok := negb strict
            || forallb (fun item => dict_in item.1 (selected t)) ps in
  exists ps',
    parse_with ps strict t = (set_parsers t ps', Ok ok)
    /\ forall index,
         ps' !! index
         = if ok then
             match Notions.assigned (selected t) ps index with
             | Some p => Some p
             | None => parsers t !! index
             end
           else parsers t !! index.
Proof.
  unfold parse_with. destruct strict; cbn.
  - rewrite existsb_negb_forallb.
    destruct (forallb _ ps) eqn:E; cbn.
    + destruct (assign_selected ps t) as (ps' & -> & Hps').
      { intros item Hin. rewrite forallb_forall in E.
        by apply E, list_elem_of_In. }
      by exists ps'.
    + exists (parsers t). split; [by destruct t|done].
  - destruct (assign_selected
                (filter (fun item => dict_in item.1 (selected t) = true) ps) t)
      as (ps' & -> & Hps').
    { intros item Hin. by apply list_elem_of_filter in Hin as [Hin _]. }
    exists ps'. split; [done|]. intros index.
    by rewrite Hps', assigned_filter.
Qed.

(** X14. [parse_with] never raises and changes nothing but the parsers;
    it returns [True] when it is not strict, and when strict exactly when
    every label of the mapping is selected. *)
Theorem parse_with_returns ps strict t :
  exists t',
    parse_with ps strict t
    = (t', Ok (negb strict
               || forallb (fun item => dict_in item.1 (selected t)) ps))
    /\ selected t' = selected t /\ _header t' = _header t
    /\ _content t' = _content t /\ _n_row t' = _n_row t.
Proof.
  destruct (parse_with_spec ps strict t) as (ps' & H & _).
  exists (set_parsers t ps'). by rewrite H.
Qed.

(** X15. After a [parse_with] that returns [True], the parser of a column
    is the one of the last item of the mapping whose label selects that
    column, and the parser the column had when no label of the mapping
    selects it; labels that are not selected change nothing. *)
Theorem parse_with_assigns ps strict t t' :
  parse_with ps strict t = (t', Ok true) ->
  forall index,
    parsers t' !! index
    = match Notions.assigned (selected t) ps index with
      | Some p => Some p
      | None => parsers t !! index
      end.
Proof.
  destruct (parse_with_spec ps strict t) as (ps' & -> & Hps').
  intros [= <- Hok] index. rewrite Hok in Hps'. by rewrite <- Hps'.
Qed.

Lemma parse_with_assigns_witness :
  let sel := [("name", 0); ("id", 1); ("A", 2)] in
  let t := mkTable ["Full Name"; "Numeric Id"; "Amount"] [] sel
             (default_parsers sel) 0 in
  let int := IntParser (Some "'") in
  let t' := (parse_with [("id", IntParser None); ("nope", int); ("id", int)]
               false t).1 in
  parsers t' !! 1 = Some int /\ parsers t' !! 0 = Some Parser_.
Proof.
  intros sel t int t'.
  pose proof (parse_with_assigns
                [("id", IntParser None); ("nope", int); ("id", int)]
                false t t' eq_refl) as H.
  split; [exact (H 1)|exact (H 0)].
Defined.

End TableParseWith.

(** ** More on the iteration over the rows *)

Section TableIterationMore.
Import Tables.

Lemma IntParser_raises sep text e :
  IntParser_value sep text = Raise e -> is_ValueError e = true.
Proof.
  unfold IntParser_value.
  destruct (int_ (strip_thousands sep text)) as [z|e'] eqn:E; [done|].
  intros [= <-]. by apply int_raises in E.
Qed.

Lemma text_or_int_errors t :
  Notions.text_or_int_parsers t -> Notions.parse_errors_only t.
Proof.
  intros H index parser text e Hp Hv.
  destruct (H index parser Hp) as [->|[->|(sep & _ & ->)]]; [done| |];
    by apply IntParser_raises in Hv.
Qed.

Lemma collect_partition t rows : forall ds skipped e,
  collect t rows = (ds, skipped, e) ->
  skipped `sublist_of` rows
  /\ (e = None -> length ds + length skipped = length rows)
  /\ Forall (fun row => exists msg, row_dict t row = Raise (ValueError msg))
            skipped.
Proof.
  induction rows as [|row rest IH]; intros ds skipped e; simpl.
  - intros [= <- <- <-]. by repeat split.
  - destruct (row_dict t row) as [d|e'] eqn:E.
    + destruct (collect t rest) as [[ds' skipped'] e''].
      intros [= <- <- <-]. destruct (IH _ _ _ eq_refl) as (Hs & Hl & Hf).
      split; [by apply sublist_cons|]. split; [|done].
      intros He. specialize (Hl He). simpl. lia.
    + destruct e'; try (intros [= <- <- <-]; repeat split;
                        [apply sublist_nil_l|done|constructor]).
      destruct (collect t rest) as [[ds' skipped'] e''].
      intros [= <- <- <-]. destruct (IH _ _ _ eq_refl) as (Hs & Hl & Hf).
      split; [by apply sublist_skip|]. split.
      * intros He. specialize (Hl He). simpl. lia.
      * constructor; [by eexists|done].
Qed.

(** X16. A traversal of any table ends.  The rows it skips are rows of
    the table, in their order, whose dictionary fails with [ValueError];
    when the traversal does not raise, every row is either yielded or
    skipped. *)
Theorem iterate_partitions t :
  exists ds skipped e,
    iterate t = Some (ds, skipped, e)
    /\ skipped `sublist_of` _content t
    /\ (e = None -> length ds + length skipped = length (_content t))
    /\ Forall (fun row => exists msg, row_dict t row = Raise (ValueError msg))
              skipped.
Proof.
  rewrite iterate_collect.
  destruct (collect t (_content t)) as [[ds skipped] e] eqn:E.
  exists ds, skipped, e. split; [done|]. by apply collect_partition.
Qed.

(** X17. A traversal starts from the first row wherever an earlier
    traversal has stopped: it gives the same after any call of
    [__next__], and for any value of the row counter. *)
Theorem iterate_restarts t :
  iterate (next t).1.1 = iterate t
  /\ forall n, iterate (set_n_row t n) = iterate t.
Proof.
  assert (forall n, iterate (set_n_row t n) = iterate t) as H.
  { intros n. rewrite !iterate_collect. by rewrite collect_set_n_row. }
  split; [|done]. unfold next.
  destruct (next_from t _ _) as [[n skipped] o]. apply H.
Qed.

Lemma row_dict_errors t row e :
  Notions.rectangular t -> Notions.parse_errors_only t ->
  row ∈ _content t -> row_dict t row = Raise e -> is_ValueError e = true.
Proof.
  intros Hrect Herr Hrow H.
  apply dict_comp_Raise in H as (label & index & Hin & Hcell).
  destruct (Hrect label index Hin) as [[p Hp] Hlen].
  destruct (lookup_lt_is_Some_2 row index (Hlen row Hrow)) as [text Ht].
  unfold cell in Hcell. rewrite Hp, Ht in Hcell.
  by apply (Herr index p text).
Qed.

(** X18. In a table whose selected columns all have a text parser or an
    integer parser, with no separator or a separator whose characters
    stand for themselves in a character class, and whose rows all reach
    the selected columns, the dictionary of a row is built or fails with
    [ValueError], the exception that [__next__] catches: no row fails
    with [KeyError], [IndexError] or another exception. *)
Theorem row_dict_fails_with_ValueError t row :
  Notions.rectangular t -> Notions.text_or_int_parsers t ->
  row ∈ _content t ->
  (exists d, row_dict t row = Ok d)
  \/ (exists msg, row_dict t row = Raise (ValueError msg)).
Proof.
  intros Hrect Hp Hrow.
  destruct (row_dict t row) as [d|e] eqn:E; [left; by exists d|].
  pose proof (row_dict_errors t row e Hrect (text_or_int_errors t Hp) Hrow E)
    as He.
  destruct e; try done. right. by eexists.
Qed.

Lemma collect_stops t before row after e :
  Forall (row_parses t) before -> row_dict t row = Raise e ->
  is_ValueError e = false ->
  exists ds,
    collect t (before ++ row :: after) = (ds, [], Some e)
    /\ length ds = length before.
Proof.
  intros Hbefore Hrow He.
  induction Hbefore as [|r rest Hr _ (ds & IH & Hlen)]; simpl.
  - rewrite Hrow. exists []. by destruct e.
  - destruct (row_parses_dict _ _ Hr) as [d ->]. rewrite IH.
    exists (d :: ds). split; [done|]. simpl. by rewrite Hlen.
Qed.

(** X19. A row too short for a selected column is not skipped: when the
    cells before that column parse, the traversal yields the rows before
    it and then raises [IndexError], and the rows after it are not
    read. *)
Theorem iterate_short_row t before row after sel1 label index sel2 :
  _content t = before ++ row :: after ->
  Forall (row_parses t) before ->
  selected t = sel1 ++ (label, index) :: sel2 ->
  (forall l i, (l, i) ∈ sel1 -> exists v, cell t row i = Ok v) ->
  is_Some (parsers t !! index) ->
  length row <= index ->
  exists ds,
    iterate t = Some (ds, [], Some IndexError)
    /\ length ds = length before.
Proof.
  intros Hcontent Hbefore Hsel Hsel1 [p Hp] Hlen.
  assert (row_dict t row = Raise IndexError) as Hrow.
  { unfold row_dict. rewrite Hsel. apply dict_comp_first; [done|].
    unfold cell. rewrite Hp. by rewrite (lookup_ge_None_2 row index Hlen). }
  rewrite iterate_collect, Hcontent.
  destruct (collect_stops t before row after IndexError Hbefore Hrow eq_refl)
    as (ds & -> & Hds).
  by exists ds.
Qed.

Lemma iterate_short_row_witness :
  let sel := [("name", 0); ("A", 2)] in
  let t := mkTable ["Full Name"; "Numeric Id"; "Amount"]
             [["Bar"; "2"; "5"]; ["Baz"; "3"]; ["Qux"; "4"; "6"]] sel
             (default_parsers sel) 0 in
  exists ds, iterate t = Some (ds, [], Some IndexError) /\ length ds = 1.
Proof.
  intros sel t.
  apply (iterate_short_row t [["Bar"; "2"; "5"]] ["Baz"; "3"]
           [["Qux"; "4"; "6"]] [("name", 0)] "A" 2 []).
  - reflexivity.
  - constructor; [|constructor]. intros label index Hin.
    unfold t, sel in Hin. cbn in Hin.
    rewrite !elem_of_cons, elem_of_nil in Hin.
    destruct Hin as [[= -> ->]|[[= -> ->]|[]]]; by eexists.
  - reflexivity.
  - intros l i Hin. apply list_elem_of_singleton in Hin as [= -> ->].
    by eexists.
  - by eexists.
  - cbn. lia.
Defined.

Lemma row_dict_fails_with_ValueError_witness :
  let sel := [("name", 0); ("id", 1)] in
  let t := mkTable ["Full Name"; "Numeric Id"] [["Bar"; "2"]; ["Baz"; "X"]]
             sel (<[1 := IntParser (Some ",")]> (default_parsers sel)) 0 in
  (exists d, row_dict t ["Baz"; "X"] = Ok d)
  \/ (exists msg, row_dict t ["Baz"; "X"] = Raise (ValueError msg)).
Proof.
  intros sel t. apply (row_dict_fails_with_ValueError t).
  - intros label index Hin. unfold t, sel in Hin. cbn in Hin.
    rewrite !elem_of_cons, elem_of_nil in Hin.
    destruct Hin as [[= -> ->]|[[= -> ->]|[]]];
      (split; [by eexists|]); intros row Hrow; cbn in Hrow;
      rewrite !elem_of_cons, elem_of_nil in Hrow;
      destruct Hrow as [->|[->|[]]]; cbn; lia.
  - intros index parser Hp. unfold t, sel, default_parsers in Hp. cbn in Hp.
    destruct index as [|[|index]].
    + left. rewrite lookup_insert_ne in Hp by done.
      rewrite lookup_insert_ne in Hp by done.
      rewrite lookup_insert_eq in Hp. by injection Hp as <-.
    + right. right. exists ",". rewrite lookup_insert_eq in Hp.
      split; [reflexivity|]. by injection Hp as <-.
    + rewrite !lookup_insert_ne in Hp by done. by rewrite lookup_empty in Hp.
  - right. left.
Defined.

End TableIterationMore.

(** ** Selection followed by iteration *)

Section TableSelectIterate.
Import Tables.

Lemma dict_set_elem {K V} `{EqDecision K} (k k' : K) (v v' : V) d :
  (k', v') ∈ dict_set k v d -> (k', v') = (k, v) \/ (k', v') ∈ d.
Proof.
  induction d as [|[k0 v0] r IH]; cbn [dict_set].
  - intros ->%list_elem_of_singleton. by left.
  - destruct (decide (k = k0)) as [->|Hne].
    + intros [->|H]%elem_of_cons; [by left|]. right. by right.
    + intros [->|H]%elem_of_cons; [right; left|].
      destruct (IH H) as [?|?]; [by left|]. right. by right.
Qed.

(** Every entry of the dictionary comes from an item. *)
Lemma dict_comp_elem {K A B} `{EqDecision K} (f : A -> result B)
    (items : list (K * A)) : forall acc d,
  dict_comp f items acc = Ok d ->
  forall k b, (k, b) ∈ d ->
    (k, b) ∈ acc \/ exists a, (k, a) ∈ items /\ f a = Ok b.
Proof.
  induction items as [|[k a] r IH]; intros acc d; simpl.
  - intros [= <-] k b Hin. by left.
  - destruct (f a) as [b0|e] eqn:E; [|done]. intros H k' b' Hin.
    destruct (IH _ _ H k' b' Hin) as [Hacc|(a' & Ha' & Hf)].
    + apply dict_set_elem in Hacc as [[= -> ->]|Hacc]; [|by left].
      right. exists a. split; [left|done].
    + right. exists a'. split; [by right|done].
Qed.

(** With the parsers of a selection, a cell that parses is its text. *)
Lemma cell_default t sel row index v :
  parsers t = default_parsers sel ->
  cell t row index = Ok v ->
  exists text, row !! index = Some text /\ v = VStr text.
Proof.
  intros Hp. unfold cell. rewrite Hp, default_parsers_lookup.
  destruct (decide (index ∈ sel.*2)); [|done].
  destruct (row !! index) as [text|]; [|done].
  intros [= <-]. by exists text.
Qed.

Lemma row_dict_default t row d :
  parsers t = default_parsers (selected t) -> NoDup (selected t).*1 ->
  row_dict t row = Ok d -> Notions.text_row (selected t) row d.
Proof.
  intros Hp Hnd H. unfold row_dict in H.
  apply dict_comp_items in H as (d' & -> & Hd'); [|done].
  rewrite app_nil_l. eapply Forall2_impl; [exact Hd'|].
  intros item c [Hk Hc]. split; [done|].
  by apply (cell_default t (selected t)).
Qed.

(** X20. After a [select] that succeeds, on a table whose rows are at
    least as long as the header, a traversal yields every row and skips
    none: each row comes out as the texts of the selected columns under
    the labels, in the order of the labels. *)
Theorem select_then_iterate spec t :
  matches spec (_header t) ->
  (forall row, row ∈ _content t -> length (_header t) <= length row) ->
  exists t1 ds,
    select spec t = (t1, Ok true)
    /\ iterate t1 = Some (ds, [], None)
    /\ Forall2 (Notions.text_row (selected t1)) (_content t) ds.
Proof.
  intros Hm Hrows.
  destruct (select_matches spec t Hm) as (sel & Hsel & Hselect).
  set (t1 := set_selection t sel (default_parsers sel)).
  assert (NoDup (selected t1).*1) as Hnd.
  { cbn. eapply dict_comp_NoDup; [|exact Hsel]. apply NoDup_nil_2. }
  assert (Forall (row_parses t1) (_content t)) as Hok.
  { apply Forall_forall. intros row Hrow label index Hin. cbn in Hin.
    destruct (dict_comp_elem _ _ _ _ Hsel label index Hin)
      as [Hacc|(column & _ & Hi)]; [by apply elem_of_nil in Hacc|].
    apply index_Ok in Hi as [Hi _]. apply lookup_lt_Some in Hi.
    destruct (lookup_lt_is_Some_2 row index) as [text Ht].
    { specialize (Hrows row Hrow). lia. }
    exists (VStr text). unfold cell. cbn.
    rewrite default_parsers_lookup, decide_True, Ht; [done|].
    apply list_elem_of_fmap. by exists (label, index). }
  destruct (collect_parses t1 _ Hok) as (ds & Hcollect & Hds).
  exists t1, ds. split; [by apply Hselect|]. split.
  - rewrite iterate_collect. cbn. by rewrite Hcollect.
  - eapply Forall2_impl; [exact Hds|]. intros row d Hd.
    by apply row_dict_default.
Qed.

Lemma select_then_iterate_witness :
  let t := mkTable ["Full Name"; "Numeric Id"; "Amount"]
             [["Bar"; "2"; "5"]; ["Baz"; "X"; "7"]] [] ∅ 0 in
  let spec := mkTableSpec [("id", "Numeric Id"); ("name", "Full Name")]
                None in
  exists t1 ds,
    select spec t = (t1, Ok true)
    /\ iterate t1 = Some (ds, [], None)
    /\ Forall2 (Notions.text_row (selected t1)) (_content t) ds.
Proof.
  intros t spec. apply (select_then_iterate spec t).
  - split; cbn.
    + intros label column Hin.
      rewrite !elem_of_cons, elem_of_nil in Hin.
      destruct Hin as [[= -> ->]|[[= -> ->]|[]]];
        by apply (bool_decide_unpack _).
    + intros names column [=].
  - intros row Hrow. cbn in Hrow.
    rewrite !elem_of_cons, elem_of_nil in Hrow.
    destruct Hrow as [->|[->|[]]]; cbn; lia.
Defined.

End TableSelectIterate.

(** ** The table finder *)

Section FinderFacts.
Import Tables Finder.




(** X22. What [find_tables] returns and logs does not depend on the
    selection and the parsers its tables start with: two lists of tables
    with the same headers, rows and row counters give the same. *)
Theorem find_tables_initial_state tables tables' spec ps strict :
  Forall2 (fun t t' => _header t = _header t' /\ _content t = _content t'
                       /\ _n_row t = _n_row t') tables tables' ->
  find_tables tables spec ps strict = find_tables tables' spec ps strict.
Proof.
  induction 1 as [|t t' rest rest' (Hh & Hc & Hn) _ IH]; [done|].
  cbn [find_tables]. unfold select, set_selection.
  rewrite <- Hh, <- Hc, <- Hn, IH.
  destruct (dict_comp _ (columns spec) []) as [sel|e]; [done|].
  by destruct e.
Qed.

Lemma find_tables_initial_state_witness :
  let spec := mkTableSpec [("id", "Numeric Id")] None in
  let t := mkTable ["Name"; "Numeric Id"] [["Bar"; "2"]] [] ∅ 0 in
  let t' := mkTable ["Name"; "Numeric Id"] [["Bar"; "2"]]
              [("name", 0)] (default_parsers [("name", 0)]) 0 in
  find_tables [t] spec None false = find_tables [t'] spec None false.
Proof.
  intros spec t t'. apply find_tables_initial_state.
  constructor; [done|constructor].
Defined.

End FinderFacts.

(** ** The specification file *)

Section TableSpecsFacts.
Import Tables TableSpecs.

Lemma columns_of_get key pairs : forall acc,
  dict_get key (columns_of pairs acc)
  = match last_value key pairs with
    | Some value => Some value
    | None => dict_get key acc
    end.
Proof.
  induction pairs as [|[k v] r IH]; intros acc; [done|].
  unfold columns_of in *. cbn [foldl last_value]. rewrite IH.
  destruct (last_value key r); [done|]. cbn.
  destruct v as [v|].
  - rewrite dict_get_set. by destruct (decide (key = k)).
  - by destruct (decide (key = k)).
Qed.

Lemma columns_of_NoDup pairs : forall acc,
  NoDup acc.*1 -> NoDup (columns_of pairs acc).*1.
Proof.
  induction pairs as [|[k v] r IH]; intros acc Hacc; [done|].
  unfold columns_of in *. cbn [foldl]. apply IH. cbn.
  destruct v; [by apply dict_set_NoDup|done].
Qed.

(** X23. In the specification built from a loaded document, a label is
    mapped to the last value that is not null among the pairs of that
    label, over the dictionaries of the document in their order; a label
    with null values only is not mapped.  The labels are all different,
    and the columns to drop are those of the lists of the document in
    their order. *)
Theorem table_specification_columns raw_data :
  (forall key,
      dict_get key (columns (table_specification raw_data))
      = last_value key (concat (dict_specs raw_data)))
  /\ NoDup (columns (table_specification raw_data)).*1
  /\ drop (table_specification raw_data)
     = Some (concat (list_specs raw_data)).
Proof.
  split; [|split; [|done]].
  - intros key. cbn. rewrite columns_of_get.
    by destruct (last_value key _).
  - cbn. apply columns_of_NoDup. constructor.
Qed.

End TableSpecsFacts.

(** ** The command line *)

Section SubsFacts.
Import Subs.

(** X24. [str_or_int] never raises: it gives an integer exactly for the
    texts that are integer literals, and gives any other text back as it
    is. *)
Theorem str_or_int_total value :
  ((exists n, str_or_int value = Ok (inl n))
   <-> int_literal (list_ascii_of_string value))
  /\ (~ int_literal (list_ascii_of_string value) ->
      str_or_int value = Ok (inr value)).
Proof.
  unfold str_or_int. destruct (int_ value) as [n|e] eqn:E.
  - pose proof (int_ok_literal _ _ E). split; [|done].
    split; [done|]. by exists n.
  - pose proof (int_raises _ _ E) as He. destruct e; try done.
    assert (~ int_literal (list_ascii_of_string value)) as Hno.
    { intros [z Hz]%int_literal_ok. congruence. }
    split; [|done]. split; [by intros [n [=]]|done].
Qed.

End SubsFacts.

(** ** Grouped digits *)

Section IntParserGroups.
Import Tables Notions.

Lemma in_class_truthy sep c : in_class sep c = true -> truthy sep = true.
Proof. by destruct sep. Qed.

Lemma last_or_cons {A} (c : A) (r : list A) (prev : option A) :
  match last (c :: r) with Some d => Some d | None => prev end
  = match last r with Some d => Some d | None => Some c end.
Proof.
  destruct r as [|x r]; [done|].
  change (last (c :: x :: r)) with (last (x :: r)).
  destruct (last (x :: r)) eqn:E; [done|]. by apply last_None in E.
Qed.

(** The scan keeps digits, when no digit is a separator. *)
Lemma sub_thousands_digits sep ds rest :
  (forall d, is_digit d = true -> in_class sep d = false) ->
  all_digits ds ->
  forall prev,
    sub_thousands sep prev (ds ++ rest)
    = ds ++ sub_thousands sep
              match last ds with Some d => Some d | None => prev end rest.
Proof.
  intros Hsep Hds. induction Hds as [|c r Hc _ IH]; intros prev; [done|].
  cbn [app sub_thousands]. rewrite (Hsep c Hc). cbn [andb].
  rewrite IH, last_or_cons. done.
Qed.

Lemma all_digits_last ds :
  ds <> [] -> all_digits ds ->
  exists d, last ds = Some d /\ is_digit d = true.
Proof.
  intros Hne Hds. destruct (last ds) as [d|] eqn:E.
  - exists d. split; [done|].
    unfold all_digits in Hds. rewrite Forall_forall in Hds. apply Hds.
    rewrite last_lookup in E. by apply list_elem_of_lookup_2 in E.
  - by apply last_None in E.
Qed.

(** The scan drops a separator between a digit and a group of three. *)
Lemma sub_thousands_group sep c d g rest :
  (forall x, is_digit x = true -> in_class sep x = false) ->
  in_class sep c = true -> is_digit d = true ->
  length g = 3 -> all_digits g ->
  exists z,
    is_digit z = true
    /\ sub_thousands sep (Some d) (c :: g ++ rest)
       = g ++ sub_thousands sep (Some z) rest.
Proof.
  intros Hsep Hc Hd Hlen Hg.
  destruct (all_digits_last g) as (z & Hz & Hzd); [by destruct g|done|].
  exists z. split; [done|].
  cbn [sub_thousands after_digit]. rewrite Hc, Hd.
  assert (three_digits (g ++ rest) = true) as ->.
  { destruct g as [|x [|y [|w [|]]]]; try done.
    apply Forall_cons in Hg as [Hx Hg]. apply Forall_cons in Hg as [Hy Hg].
    apply Forall_cons in Hg as [Hw _]. cbn. by rewrite Hx, Hy, Hw. }
  cbn [andb]. rewrite (sub_thousands_digits sep g rest Hsep Hg). by rewrite Hz.
Qed.

Lemma sub_thousands_grouped sep c groups :
  (forall x, is_digit x = true -> in_class sep x = false) ->
  in_class sep c = true ->
  Forall (fun g => length g = 3 /\ all_digits g) groups ->
  forall d, is_digit d = true ->
    sub_thousands sep (Some d) (grouped c groups) = concat groups.
Proof.
  intros Hsep Hc Hgroups.
  induction Hgroups as [|g gs [Hlen Hg] _ IH]; intros d Hd; [done|].
  unfold grouped. cbn [map concat]. cbn [app].
  destruct (sub_thousands_group sep c d g (grouped c gs) Hsep Hc Hd Hlen Hg)
    as (z & Hz & Hsub).
  unfold grouped in Hsub. rewrite Hsub. f_equal. by apply IH.
Qed.

Lemma int_digits_all ds :
  all_digits ds -> forall need acc n,
  (need = true -> ds <> []) ->
  int_digits need acc n ds
  = Some (foldl (fun acc d => (10 * acc + digit_value d)%Z) acc ds,
          n + length ds, []).
Proof.
  induction 1 as [|c r Hc _ IH]; intros need acc n Hneed.
  - destruct need; [by destruct Hneed|]. cbn. by rewrite Nat.add_0_r.
  - cbn [int_digits]. rewrite Hc, IH by done. cbn. do 3 f_equal. lia.
Qed.

Lemma int_of_digits (neg : bool) ds :
  ds <> [] -> all_digits ds -> length ds <= int_max_str_digits ->
  int_ (string_of_list_ascii ((if neg then ["-"%char] else []) ++ ds))
  = Ok ((if neg then -1 else 1) * decimal_value ds)%Z.
Proof.
  intros Hne Hds Hlen. unfold int_.
  rewrite list_ascii_of_string_of_list_ascii.
  destruct ds as [|d r]; [done|]. pose proof Hds as Hall.
  apply Forall_cons in Hds as [Hd _].
  assert (int_sign (skip_spaces ((if neg then ["-"%char] else []) ++ d :: r))
          = ((if neg then -1 else 1)%Z, d :: r)) as ->.
  { destruct neg; cbn.
    - done.
    - rewrite (digit_not_space _ Hd). cbn.
      by rewrite (digit_not_plus _ Hd), (digit_not_minus _ Hd). }
  rewrite (int_digits_all _ Hall) by done.
  destruct (Nat.ltb_spec int_max_str_digits (0 + length (d :: r)));
    [cbn in *; lia|done].
Qed.

(** X25. With a separator whose characters stand for themselves in a
    character class, a run of digits followed by groups of three digits,
    each with a character of the separator before it, with or without a
    minus sign in front, parses to the number its digits read as, when no
    digit is a separator and the digits are not more than the interpreter
    allows. *)
Theorem IntParser_value_grouped sep c (neg : bool) g0 groups :
  literal_separator sep = true ->
  in_class sep c = true ->
  (forall d, is_digit d = true -> in_class sep d = false) ->
  g0 <> [] -> all_digits g0 ->
  Forall (fun g => length g = 3 /\ all_digits g) groups ->
  length (g0 ++ concat groups) <= int_max_str_digits ->
  IntParser_value (Some sep)
    (string_of_list_ascii
       ((if neg then ["-"%char] else []) ++ g0 ++ grouped c groups))
  = Ok (VInt ((if neg then -1 else 1) * decimal_value (g0 ++ concat groups))).
Proof.
  intros _ Hc Hsep Hne Hg0 Hgroups Hlen.
  unfold IntParser_value, strip_thousands.
  rewrite (in_class_truthy _ _ Hc), list_ascii_of_string_of_list_ascii.
  destruct (all_digits_last g0 Hne Hg0) as (d & Hd & Hdd).
  assert (sub_thousands sep None
            ((if neg then ["-"%char] else []) ++ g0 ++ grouped c groups)
          = (if neg then ["-"%char] else []) ++ g0 ++ concat groups) as ->.
  { destruct neg.
    - cbn [app sub_thousands after_digit]. rewrite andb_false_r. cbn [andb].
      rewrite (sub_thousands_digits sep g0 _ Hsep Hg0), Hd.
      by rewrite (sub_thousands_grouped sep c groups Hsep Hc Hgroups d Hdd).
    - cbn [app].
      rewrite (sub_thousands_digits sep g0 _ Hsep Hg0), Hd.
      by rewrite (sub_thousands_grouped sep c groups Hsep Hc Hgroups d Hdd). }
  rewrite int_of_digits; [done| |  |done].
  - by destruct g0.
  - apply Forall_app. split; [done|].
    apply Forall_concat. eapply Forall_impl; [exact Hgroups|]. by intros g [_ ?].
Qed.

Lemma IntParser_value_grouped_witness :
  IntParser_value (Some ",") "-12,345,678" = Ok (VInt (-12345678)).
Proof.
  apply (IntParser_value_grouped "," ","%char true
           (list_ascii_of_string "12")
           [list_ascii_of_string "345"; list_ascii_of_string "678"]).
  - reflexivity.
  - reflexivity.
  - intros d Hd. unfold in_class. cbn. rewrite orb_false_r.
    apply Ascii.eqb_neq. intros ->. discriminate Hd.
  - discriminate.
  - by repeat constructor.
  - by repeat constructor.
  - cbn. unfold int_max_str_digits. lia.
Defined.

End IntParserGroups.
